(** * PyExecGate: dispatch engine and remote command handler

    A shallow embedding of [main.py] (identifier validation, the memoised
    module loader, the timeout-bounded dispatch engine) and of
    [scripts/ssh.py] (the remote command handler), with the properties
    stated about them.

    Conventions of the embedding:
    - a [str] is a list of code points, [bytes] a list of byte values, and
      the values that travel through handlers are JSON-like data plus
      [bytes];
    - code that mutates state or raises is a state-and-exception monad: the
      loader and the engine run over the process state (files, cache,
      executions, clock, worker threads), the SSH handler over its [result] dict and the trace of what it did to
      the outside;
    - exceptions are those deriving from [Exception];
    - what the libraries do (handler bodies, the files, the SSH peer, JSON
      and text decoding, the timer and the float arithmetic on its
      readings) is data the functions are given, and the properties hold
      for all of it;
    - the time of the event loop is rational and logical: a call takes the
      time its description says, once a worker thread has taken it, and
      [asyncio.wait_for] gives up exactly at the deadline;
    - requests are dispatched one after the other; a handler given up at
      its deadline keeps its worker thread while it runs;
    - logging is left out. *)

From Stdlib Require Import List String Ascii Bool Arith ZArith NArith QArith Lia.
From Stdlib Require Import DecimalString.
Import ListNotations.

Set Implicit Arguments.
Set Warnings "-register-all".
Local Open Scope list_scope.

(** ** Python values *)

Module Py.

(** A [str] is a sequence of Unicode code points. *)
Definition char := N.
Definition str := list char.

Definition ord (a : ascii) : char := N_of_ascii a.

(** [lit] reads an ASCII literal of the source as a [str]. *)
Definition lit (s : string) : str := map ord (list_ascii_of_string s).

Definition str_eqb (a b : str) : bool :=
  if list_eq_dec N.eq_dec a b then true else false.

(** [sep.join(parts)] *)
Fixpoint join (sep : str) (parts : list str) : str :=
  match parts with
  | [] => []
  | [p] => p
  | p :: rest => p ++ sep ++ join sep rest
  end.

(** [s.split(sep)] for a separator of one character. *)
Fixpoint split (sep : char) (s : str) : list str :=
  match s with
  | [] => [[]]
  | c :: rest =>
      if N.eqb c sep then [] :: split sep rest
      else match split sep rest with
           | p :: ps => (c :: p) :: ps
           | [] => [[c]]
           end
  end.

(** Decimal rendering of an [int], as [str(n)] gives it. *)
Definition str_of_int (z : Z) : str :=
  lit (NilZero.string_of_int (Z.to_int z)).

(** [bytes] objects. *)
Definition bytes := list N.

(** Hashable scalars that occur as [dict] keys. *)
Inductive key :=
| KNone
| KInt (z : Z)
| KStr (s : str)
| KBytes (b : bytes).

(** The values handlers receive and return: JSON-like data plus [bytes]. *)
Inductive val :=
| VNone
| VBool (b : bool)
| VInt (z : Z)
| VStr (s : str)
| VBytes (b : bytes)
| VList (items : list val)
| VDict (items : list (key * val)).

Definition key_eqb (a b : key) : bool :=
  match a, b with
  | KNone, KNone => true
  | KInt x, KInt y => Z.eqb x y
  | KStr x, KStr y => str_eqb x y
  | KBytes x, KBytes y => str_eqb x y
  | _, _ => false
  end.

(** [k in d] and [d.get(k, default)] on the items of a [dict]. *)
Fixpoint dict_find (k : key) (d : list (key * val)) : option val :=
  match d with
  | [] => None
  | (k', v) :: rest => if key_eqb k k' then Some v else dict_find k rest
  end.

Definition dict_contains (k : key) (d : list (key * val)) : bool :=
  match dict_find k d with Some _ => true | None => false end.

Definition dict_get (k : key) (default : val) (d : list (key * val)) : val :=
  match dict_find k d with Some v => v | None => default end.

(** Truth value of an object, as [if not x] tests it. *)
Definition truthy (v : val) : bool :=
  match v with
  | VNone => false
  | VBool b => b
  | VInt z => negb (Z.eqb z 0)
  | VStr s => match s with [] => false | _ => true end
  | VBytes b => match b with [] => false | _ => true end
  | VList l => match l with [] => false | _ => true end
  | VDict d => match d with [] => false | _ => true end
  end.

End Py.

(** ** State and exceptions

    Code that updates state and may raise: a function from the state to an
    outcome (a value or the exception raised) and the new state. *)

Module Eff.

Inductive outcome (E A : Type) :=
| Ok (a : A)
| Raise (e : E).
Arguments Ok {E A} a.
Arguments Raise {E A} e.

Section Monad.

Variables S E : Type.

Definition M (A : Type) : Type := S -> outcome E A * S.

Definition ret {A} (a : A) : M A := fun s => (Ok a, s).

Definition raise {A} (e : E) : M A := fun s => (Raise e, s).

Definition bind {A B} (m : M A) (k : A -> M B) : M B :=
  fun s => match m s with
           | (Ok a, s') => k a s'
           | (Raise e, s') => (Raise e, s')
           end.

Definition lift {A} (r : outcome E A) : M A := fun s => (r, s).

Definition get {A} (f : S -> A) : M A := fun s => (Ok (f s), s).

Definition modify (f : S -> S) : M unit := fun s => (Ok tt, f s).

(** [try: m except Exception as e: h e] *)
Definition try_except {A} (m : M A) (h : E -> M A) : M A :=
  fun s => match m s with
           | (Ok a, s') => (Ok a, s')
           | (Raise e, s') => h e s'
           end.

(** [try: m except Exception as e: h e finally: f] *)
Definition try_except_finally {A} (m : M A) (h : E -> M A) (f : M unit) : M A :=
  fun s =>
    let (r, s1) := try_except m h s in
    match f s1 with
    | (Ok _, s2) => (r, s2)
    | (Raise e, s2) => (Raise e, s2)
    end.

End Monad.

Arguments ret {S E A} a.
Arguments raise {S E A} e.
Arguments bind {S E A B} m k.
Arguments lift {S E A} r.
Arguments get {S E A} f.
Arguments modify {S E} f.
Arguments try_except {S E A} m h.
Arguments try_except_finally {S E A} m h f.

Declare Scope py_scope.
Delimit Scope py_scope with py.
Notation "x <- m ;; k" := (bind m (fun x => k))
  (at level 61, m at next level, right associativity) : py_scope.
Notation "m ;;; k" := (bind m (fun _ => k))
  (at level 61, right associativity) : py_scope.

End Eff.

(** ** Regular expressions, as far as [re.fullmatch] is used *)

Module Re.
Import Py.

(** A character set [[a-zA-Z0-9_]] is a list of inclusive ranges. *)
Definition charset := list (char * char).

Definition in_range (c : char) (r : char * char) : bool :=
  (N.leb (fst r) c && N.leb c (snd r))%bool.

Definition in_charset (cs : charset) (c : char) : bool :=
  existsb (in_range c) cs.

Inductive regex :=
| Void
| Eps
| Set_ (cs : charset)
| Cat (r1 r2 : regex)
| Alt (r1 r2 : regex)
| Star (r : regex).

(** [r+] *)
Definition Plus (r : regex) : regex := Cat r (Star r).

Fixpoint nullable (r : regex) : bool :=
  match r with
  | Void => false
  | Eps => true
  | Set_ _ => false
  | Cat r1 r2 => nullable r1 && nullable r2
  | Alt r1 r2 => nullable r1 || nullable r2
  | Star _ => true
  end.

Fixpoint deriv (c : char) (r : regex) : regex :=
  match r with
  | Void => Void
  | Eps => Void
  | Set_ cs => if in_charset cs c then Eps else Void
  | Cat r1 r2 =>
      if nullable r1 then Alt (Cat (deriv c r1) r2) (deriv c r2)
      else Cat (deriv c r1) r2
  | Alt r1 r2 => Alt (deriv c r1) (deriv c r2)
  | Star r1 => Cat (deriv c r1) (Star r1)
  end.

(** [re.fullmatch(r, s) is not None]: the whole of [s] must be consumed. *)
Fixpoint fullmatch (r : regex) (s : str) : bool :=
  match s with
  | [] => nullable r
  | c :: s' => fullmatch (deriv c r) s'
  end.

(** The language of a pattern. *)
Inductive lang : regex -> str -> Prop :=
| LEps : lang Eps []
| LSet cs c : in_charset cs c = true -> lang (Set_ cs) [c]
| LCat r1 r2 s1 s2 : lang r1 s1 -> lang r2 s2 -> lang (Cat r1 r2) (s1 ++ s2)
| LAltL r1 r2 s : lang r1 s -> lang (Alt r1 r2) s
| LAltR r1 r2 s : lang r2 s -> lang (Alt r1 r2) s
| LStarNil r : lang (Star r) []
| LStarApp r s1 s2 : lang r s1 -> lang (Star r) s2 -> lang (Star r) (s1 ++ s2).

End Re.

(** ** [main.py] *)

Module Main.
Import Py Eff Re.

Definition SCRIPTS_DIR : str := lit "scripts".
Definition SCRIPT_TIMEOUT : Z := 300.

(** *** Exceptions

    The classes the [except] clauses of [main.py] tell apart.  [str(e)] of an
    [HTTPException] is ["<status_code>: <detail>"]; of the others, the
    message. *)
Inductive exn :=
| HTTPException (status_code : Z) (detail : str)
| TimeoutError (msg : str)
| TypeError (msg : str)
| AttributeError (msg : str)
| OtherException (cls : str) (msg : str).

Definition str_of_exn (e : exn) : str :=
  match e with
  | HTTPException c d => str_of_int c ++ lit ": " ++ d
  | TimeoutError m => m
  | TypeError m => m
  | AttributeError m => m
  | OtherException _ m => m
  end.

Definition result : Type -> Type := outcome exn.

(** *** Handler modules *)

(** What calling a function does: it returns or raises after some run time
    (in seconds), or never finishes. *)
Inductive invocation :=
| Completes (after : Q) (o : result val)
| Hangs.

Inductive param_kind := PositionalOnly | PositionalOrKeyword | KeywordOnly.

Record param := {
  p_name : str;
  p_kind : param_kind;
  p_default : option val
}.

Record signature := {
  sig_params : list param;
  sig_var_keyword : bool      (* a var-keyword parameter *)
}.

Record function := {
  f_name : str;
  f_sig : signature;
  f_body : list (str * val) -> invocation
}.

(** An attribute of a module object is plain data or a function. *)
Inductive attr :=
| Data (v : val)
| Func (f : function).

(** A module object: [m_id] is its identity and [m_attrs] the attributes
    the ordinary lookup finds on it, those every module object has
    included.  [m_getattr] is the function the module defines under the name
    [__getattr__], if it defines one: the lookup of a name that is not
    among the attributes calls it, and it returns the attribute or raises,
    [AttributeError] or anything else. *)
Record module := {
  m_id : nat;
  m_name : str;
  m_attrs : list (str * attr);
  m_getattr : option (str -> result attr)
}.

Fixpoint assoc {A : Type} (k : str) (l : list (str * A)) : option A :=
  match l with
  | [] => None
  | (k', a) :: rest => if str_eqb k k' then Some a else assoc k rest
  end.

Definition quote (s : str) : str := lit "'" ++ s ++ lit "'".

Definition no_attribute (m : module) (name : str) : exn :=
  AttributeError (lit "module " ++ quote (m_name m) ++ lit " has no attribute "
                  ++ quote name).

(** [getattr(m, name)] *)
Definition getattr (m : module) (name : str) : result attr :=
  match assoc name (m_attrs m) with
  | Some a => Ok a
  | None =>
      match m_getattr m with
      | Some hook => hook name
      | None => Raise (no_attribute m name)
      end
  end.

(** [hasattr(m, name)]: the lookup of [getattr], with [AttributeError] and
    nothing else turned into [False]. *)
Definition hasattr (m : module) (name : str) : result bool :=
  match getattr m name with
  | Ok _ => Ok true
  | Raise (AttributeError _) => Ok false
  | Raise e => Raise e
  end.

(** *** Calling with keyword arguments only, as [method] is called with the
    unpacked [params] *)

Definition is_positional_only (p : param) : bool :=
  match p_kind p with PositionalOnly => true | _ => false end.

Definition is_keyword_only (p : param) : bool :=
  match p_kind p with KeywordOnly => true | _ => false end.

(** The names a caller may pass by keyword. *)
Definition accepted_names (sg : signature) : list str :=
  map p_name (filter (fun p => negb (is_positional_only p)) (sig_params sg)).

Definition mem (k : str) (l : list str) : bool := existsb (str_eqb k) l.

Definition accepts (sg : signature) (k : str) : bool :=
  (sig_var_keyword sg || mem k (accepted_names sg))%bool.

(** Keys of the mapping the signature does not accept. *)
Definition unexpected (sg : signature) (kwargs : list (str * val)) : list str :=
  filter (fun k => negb (accepts sg k)) (map fst kwargs).

Definition supplied (kwargs : list (str * val)) (p : param) : bool :=
  (negb (is_positional_only p) && mem (p_name p) (map fst kwargs))%bool.

(** Parameters without a default that the mapping leaves unfilled. *)
Definition missing (sg : signature) (kwargs : list (str * val)) : list param :=
  filter (fun p => match p_default p with
                   | Some _ => false
                   | None => negb (supplied kwargs p)
                   end) (sig_params sg).

(** One name, two names joined by "and", or a comma list closed by
    ", and". *)
Definition name_list (names : list str) : str :=
  match rev (map quote names) with
  | [] => []
  | [a] => a
  | [b; a] => a ++ lit " and " ++ b
  | b :: a :: front =>
      join (lit ", ") (rev front) ++ lit ", " ++ a ++ lit ", and " ++ b
  end.

Definition positional_only_given (sg : signature) (kwargs : list (str * val))
  : list str :=
  filter (fun n => mem n (map fst kwargs))
         (map p_name (filter is_positional_only (sig_params sg))).

Definition plural (n : nat) : str :=
  match n with 1%nat => [] | _ => lit "s" end.

Definition missing_message (fname sort : str) (ps : list param) : str :=
  fname ++ lit "() missing " ++ str_of_int (Z.of_nat (List.length ps)) ++
  lit " required " ++ sort ++ lit " argument" ++ plural (List.length ps) ++
  lit ": " ++ name_list (map p_name ps).

(** The [TypeError] message of a failed binding, if the mapping does not fit
    the signature, in the interpreter's plain wording: unexpected keys
    first, then unfilled positional parameters, then unfilled keyword-only
    ones. *)
Definition mismatch (fname : str) (sg : signature) (kwargs : list (str * val))
  : option str :=
  match unexpected sg kwargs with
  | k :: _ =>
      match positional_only_given sg kwargs with
      | [] => Some (fname ++ lit "() got an unexpected keyword argument " ++ quote k)
      | po => Some (fname ++
                    lit "() got some positional-only arguments passed as keyword arguments: "
                    ++ quote (join (lit ", ") po))
      end
  | [] =>
      let m := missing sg kwargs in
      match filter (fun p => negb (is_keyword_only p)) m, filter is_keyword_only m with
      | [], [] => None
      | [], kw => Some (missing_message fname (lit "keyword-only") kw)
      | pos, _ => Some (missing_message fname (lit "positional") pos)
      end
  end.

(** The arguments the body sees: each parameter with the value passed for it
    or its default, then the keys a var-keyword parameter collects. *)
Definition bound_args (sg : signature) (kwargs : list (str * val))
  : list (str * val) :=
  flat_map (fun p =>
              match (if is_positional_only p then None else assoc (p_name p) kwargs),
                    p_default p with
              | Some v, _ => [(p_name p, v)]
              | None, Some d => [(p_name p, d)]
              | None, None => []
              end) (sig_params sg)
  ++ filter (fun kv => negb (mem (fst kv) (accepted_names sg))) kwargs.

Definition type_name (v : val) : str :=
  match v with
  | VNone => lit "NoneType"
  | VBool _ => lit "bool"
  | VInt _ => lit "int"
  | VStr _ => lit "str"
  | VBytes _ => lit "bytes"
  | VList _ => lit "list"
  | VDict _ => lit "dict"
  end.

(** What a worker thread does once it takes the call of [method] with the
    unpacked [params]: a failed binding and a call of a non-callable raise
    [TypeError] as soon as the worker starts on them. *)
Definition call (method : attr) (params : list (str * val)) : invocation :=
  match method with
  | Data v =>
      Completes 0 (Raise (TypeError (quote (type_name v) ++ lit " object is not callable")))
  | Func f =>
      match mismatch (f_name f) (f_sig f) params with
      | Some msg => Completes 0 (Raise (TypeError msg))
      | None => f_body f (bound_args (f_sig f) params)
      end
  end.

(** *** The process state *)

(** Top-level code of a handler source either raises or initialises the
    module: [attrs] are the attributes the module object then has, those of
    every module object included. *)
Inductive exec_result :=
| Initialised (attrs : list (str * attr))
| InitRaises (e : exn).

Record source_file := {
  has_loader : bool;          (* [spec_from_file_location] found a loader *)
  top_level : exec_result;    (* what [exec_module] does *)
  module_getattr : option (str -> result attr)
                              (* the [__getattr__] the top-level code defines *)
}.

(** [running] lists the calls that hold a worker thread of the loop's
    default executor, each with the time it ends at ([None]: never);
    [max_workers] is the size of that pool. *)
Record world := {
  storage : str -> option source_file;  (* the files, by path *)
  cache : list (str * module);          (* [lru_cache] entries, most recent first *)
  executed : list str;                  (* modules whose top-level code ran *)
  next_id : nat;                        (* the next fresh object identity *)
  now : Q;                              (* the event loop's clock, in seconds *)
  max_workers : nat;
  running : list (option Q)
}.

Definition set_cache (c : list (str * module)) (w : world) : world :=
  {| storage := storage w; cache := c; executed := executed w;
     next_id := next_id w; now := now w;
     max_workers := max_workers w; running := running w |}.

Definition log_exec (name : str) (w : world) : world :=
  {| storage := storage w; cache := cache w; executed := executed w ++ [name];
     next_id := next_id w; now := now w;
     max_workers := max_workers w; running := running w |}.

Definition advance (d : Q) (w : world) : world :=
  {| storage := storage w; cache := cache w; executed := executed w;
     next_id := next_id w; now := (now w + d)%Q;
     max_workers := max_workers w; running := running w |}.

Definition set_running (calls : list (option Q)) (w : world) : world :=
  {| storage := storage w; cache := cache w; executed := executed w;
     next_id := next_id w; now := now w;
     max_workers := max_workers w; running := calls |}.

(** The files change: the environment's move, not the program's. *)
Definition set_storage (st : str -> option source_file) (w : world) : world :=
  {| storage := st; cache := cache w; executed := executed w;
     next_id := next_id w; now := now w;
     max_workers := max_workers w; running := running w |}.

(** How often the top-level code of [name] has run. *)
Definition init_count (name : str) (w : world) : nat :=
  List.length (filter (str_eqb name) (executed w)).

(** *** The monad of [main.py] *)

Definition M : Type -> Type := Eff.M world exn.

(** A fresh object identity. *)
Definition alloc : M nat :=
  fun w => (Ok (next_id w),
            {| storage := storage w; cache := cache w; executed := executed w;
               next_id := S (next_id w); now := now w;
               max_workers := max_workers w; running := running w |}).

Local Open Scope py_scope.

(** *** [is_script_name_safe] *)

Definition name_charset : charset :=
  [(ord "a", ord "z"); (ord "A", ord "Z"); (ord "0", ord "9"); (ord "_", ord "_")].

(** The pattern [[a-zA-Z0-9_]+]. *)
Definition name_pattern : regex := Plus (Set_ name_charset).

Definition is_script_name_safe (script_name : str) : bool :=
  fullmatch name_pattern script_name.

(** *** [load_script] *)

Definition starts_with_sep (p : str) : bool :=
  match p with
  | c :: _ => N.eqb c (ord "/")
  | [] => false
  end.

Definition ends_with_sep (p : str) : bool := starts_with_sep (rev p).

(** [os.path.join(a, b)] *)
Definition os_path_join (a b : str) : str :=
  if starts_with_sep b then b
  else match a with
       | [] => b
       | _ => if ends_with_sep a then a ++ b else a ++ lit "/" ++ b
       end.

(** [functools.lru_cache(maxsize=32)]: entries are kept most recently used
    first; a call that raises stores nothing; a new entry pushes the least
    recently used one out once the cache is full. *)
Definition maxsize : nat := 32.

Fixpoint remove_key {A : Type} (k : str) (l : list (str * A)) : list (str * A) :=
  match l with
  | [] => []
  | (k', a) :: rest =>
      if str_eqb k k' then remove_key k rest else (k', a) :: remove_key k rest
  end.

Definition lru_touch (k : str) (m : module) (c : list (str * module)) :=
  (k, m) :: remove_key k c.

Definition lru_store (k : str) (m : module) (c : list (str * module)) :=
  (k, m) :: firstn (maxsize - 1) c.

Definition lru_cache (f : str -> M module) (k : str) : M module :=
  c <- get cache ;;
  match assoc k c with
  | Some m =>
      modify (set_cache (lru_touch k m c)) ;;;
      ret m
  | None =>
      m <- f k ;;
      modify (fun w => set_cache (lru_store k m (cache w)) w) ;;;
      ret m
  end.

(** [os.path.join(SCRIPTS_DIR, f"{script_name}.py")] *)
Definition path_of (script_name : str) : str :=
  os_path_join SCRIPTS_DIR (script_name ++ lit ".py").

(** The function under the decorator. *)
Definition load_script_wrapped (script_name : str) : M module :=
  if negb (is_script_name_safe script_name) then
    raise (HTTPException 400 (lit "Unsafe script name."))
  else
    let script_path := path_of script_name in
    file <- get (fun w => storage w script_path) ;;
    match file with
    | None =>
        raise (HTTPException 404 (lit "Script '" ++ script_name ++ lit "' not found."))
    | Some src =>
        try_except
          (if negb (has_loader src) then
             raise (HTTPException 500 (lit "Error loading script."))
           else
             id <- alloc ;;                         (* module_from_spec *)
             modify (log_exec script_name) ;;;      (* exec_module *)
             match top_level src with
             | Initialised attrs =>
                 ret {| m_id := id; m_name := script_name; m_attrs := attrs;
                        m_getattr := module_getattr src |}
             | InitRaises e => raise e
             end)
          (fun e =>
             raise (HTTPException 500 (lit "Error loading script: " ++ str_of_exn e)))
    end.

Definition load_script : str -> M module := lru_cache load_script_wrapped.

(** *** [run_script_async] *)

(** [asyncio.wait_for(aw, timeout)] on the loop's clock: the awaited call
    wins if it completes before the deadline; otherwise the wait ends at the
    deadline with [TimeoutError], whatever the worker thread goes on doing.
    With a timeout of zero or less the wait expires at once. *)
Definition in_time (d : Q) (timeout : Z) : bool :=
  ((0 <? timeout)%Z && negb (Qle_bool (inject_Z timeout) d))%bool.

Definition expire (timeout : Z) : M val :=
  modify (advance (inject_Z (Z.max 0 timeout))) ;;;
  raise (TimeoutError []).

Definition wait_for (aw : invocation) (timeout : Z) : M val :=
  match aw with
  | Completes d o =>
      if in_time d timeout then
        modify (advance d) ;;;
        lift o
      else expire timeout
  | Hangs => expire timeout
  end.

(** *** The worker threads

    [asyncio.to_thread] hands the call to the loop's default executor, a
    pool of [max_workers] threads.  A call submitted while all of them are
    held waits until one of them ends its call; a wait that is cancelled
    before a worker has taken the call takes it off the queue, and the call
    never runs. *)

Definition still_running (t : Q) (finish : option Q) : bool :=
  match finish with
  | Some u => negb (Qle_bool u t)
  | None => true
  end.

(** The number of workers held at time [t] by the calls running now. *)
Definition held (w : world) (t : Q) : nat :=
  List.length (filter (still_running t) (running w)).

Definition worker_free (w : world) (t : Q) : bool :=
  (held w t <? max_workers w)%nat.

(** The times after now at which a running call ends. *)
Definition releases (w : world) : list Q :=
  flat_map (fun finish =>
              match finish with
              | Some u => if still_running (now w) finish then [u] else []
              | None => []
              end) (running w).

(** The earliest of the times [ts] that satisfies [ok]. *)
Fixpoint earliest (ok : Q -> bool) (ts : list Q) : option Q :=
  match ts with
  | [] => None
  | t :: rest =>
      match earliest ok rest with
      | Some u => if (ok t && Qle_bool t u)%bool then Some t else Some u
      | None => if ok t then Some t else None
      end
  end.

(** How long a call submitted now waits for a worker; [None] if none ever
    comes free. *)
Definition queue_wait (w : world) : option Q :=
  if worker_free w (now w) then Some 0%Q
  else option_map (fun u => (u - now w)%Q)
                  (earliest (worker_free w) (releases w)).

(** [asyncio.to_thread(method, ...)] as the awaiting side sees it: the call,
    after the wait for a worker. *)
Definition to_thread (w : world) (method : attr) (params : list (str * val))
  : invocation :=
  match queue_wait w, call method params with
  | Some q, Completes d o => Completes (q + d) o
  | _, _ => Hangs
  end.

(** The worker the call still holds when the wait is over: a call that a
    worker took before the deadline and that has not ended by then goes on
    running. *)
Definition left_running (w : world) (method : attr) (params : list (str * val))
           (timeout : Z) : list (option Q) :=
  match queue_wait w with
  | Some q =>
      if in_time q timeout then
        match call method params with
        | Completes d _ =>
            if in_time (q + d) timeout then [] else [Some (now w + (q + d))%Q]
        | Hangs => [None]
        end
      else []
  | None => []
  end.

(** The awaited expression of line 76: the call on a worker thread, waited
    for until the timeout. *)
Definition wait_for_thread (method : attr) (params : list (str * val))
           (timeout : Z) : M val :=
  w <- get (fun w => w) ;;
  modify (set_running (left_running w method params timeout ++ running w)) ;;;
  wait_for (to_thread w method params) timeout.

(** *** [fastapi.Response]

    The constructor encodes the header names and values and the media type
    as latin-1, and it asks the media type whether it starts with
    ["text/"]: it raises when a text has a character outside latin-1 and
    when the media type is neither [None] nor a [str]. *)


Definition hex_digit (n : N) : char :=
  if (n <? 10)%N then (48 + n)%N else (87 + n)%N.

Fixpoint hex (width : nat) (n : N) : str :=
  match width with
  | O => []
  | S k => hex k (n / 16)%N ++ [hex_digit (n mod 16)%N]
  end.

(** How the message of [UnicodeEncodeError] shows a character. *)
Definition escape (c : char) : str :=
  if (c <? 65536)%N then lit "\u" ++ hex 4 c else lit "\U" ++ hex 8 c.

(** The position of the first character outside latin-1, with the text
    from there on. *)
Fixpoint first_unencodable (i : N) (s : str) : option (N * str) :=
  match s with
  | [] => None
  | c :: rest =>
      if (c <? 256)%N then first_unencodable (i + 1)%N rest else Some (i, s)
  end.

(** How many characters outside latin-1 the text starts with. *)
Fixpoint unencodable_run (s : str) : N :=
  match s with
  | [] => 0%N
  | c :: rest => if (c <? 256)%N then 0%N else (1 + unencodable_run rest)%N
  end.

(** [s.encode("latin-1")] *)
Definition encode_latin1 (s : str) : result bytes :=
  match first_unencodable 0 s with
  | None => Ok s
  | Some (i, bad) =>
      let n := unencodable_run bad in
      Raise (OtherException (lit "UnicodeEncodeError")
               (lit "'latin-1' codec can't encode " ++
                (if (n =? 1)%N then
                   lit "character '" ++ escape (hd 0%N bad) ++
                   lit "' in position " ++ str_of_int (Z.of_N i)
                 else
                   lit "characters in position " ++ str_of_int (Z.of_N i) ++
                   lit "-" ++ str_of_int (Z.of_N (i + n - 1))) ++
                lit ": ordinal not in range(256)"))
  end.

Record ResponseObject := {
  content : bytes;
  media_type : val;
  headers : list (str * str)
}.

(** Each header name (lowered, which keeps a latin-1 text latin-1) and each
    header value is encoded. *)
Fixpoint encode_headers (hs : list (str * str)) : result unit :=
  match hs with
  | [] => Ok tt
  | (k, v) :: rest =>
      match encode_latin1 k with
      | Raise e => Raise e
      | Ok _ =>
          match encode_latin1 v with
          | Raise e => Raise e
          | Ok _ => encode_headers rest
          end
      end
  end.

(** The content type header: none for [None]; a [str] is encoded (after
    ["; charset=utf-8"] is added to a text type, which changes neither
    whether it encodes nor the message if it does not); [bytes] has a
    [startswith] that refuses a [str] argument; the other values have no
    [startswith]. *)
Definition encode_media_type (media_type : val) : result unit :=
  match media_type with
  | VNone => Ok tt
  | VStr t =>
      match encode_latin1 t with
      | Raise e => Raise e
      | Ok _ => Ok tt
      end
  | VBytes _ =>
      Raise (TypeError
               (lit "startswith first arg must be bytes or a tuple of bytes, not str"))
  | v =>
      Raise (AttributeError
               (quote (type_name v) ++ lit " object has no attribute 'startswith'"))
  end.

(** [Response(content=..., media_type=..., headers=...)] *)
Definition Response (content : bytes) (media_type : val)
           (headers : list (str * str)) : result ResponseObject :=
  match encode_headers headers with
  | Raise e => Raise e
  | Ok _ =>
      match encode_media_type media_type with
      | Raise e => Raise e
      | Ok _ =>
          Ok {| content := content; media_type := media_type; headers := headers |}
      end
  end.

(** What the engine answers with: a value to serialise, or a response
    object. *)
Inductive reply :=
| Json (v : val)
| File (r : ResponseObject).

Definition dquote : str := [34%N].

Definition method_not_found (method_name script_name : str) : str :=
  ([1052; 1077; 1090; 1086; 1076; 32; 39]%N : str) ++ method_name ++
  ([39; 32; 1085; 1077; 32; 1085; 1072; 1081; 1076; 1077; 1085; 32; 1074; 32;
    1089; 1082; 1088; 1080; 1087; 1090; 1077; 32; 39]%N : str) ++ script_name ++
  ([39; 46]%N : str).

Section Dispatch.

(** [repr] of the containers and of [bytes], which an f-string falls back
    on for them. *)
Variable repr : val -> str.

(** The text an f-string field gives for a value. *)
Definition format_value (v : val) : str :=
  match v with
  | VStr s => s
  | VNone => lit "None"
  | VBool true => lit "True"
  | VBool false => lit "False"
  | VInt z => str_of_int z
  | _ => repr v
  end.

(** Lines 82 to 100: file result or structured result. *)
Definition classify (result : val) : M reply :=
  match result with
  | VDict d =>
      if dict_contains (KStr (lit "content")) d then
        match dict_get (KStr (lit "content")) VNone d with
        | VBytes content =>
            let filename := dict_get (KStr (lit "filename")) (VStr (lit "file.bin")) d in
            let media_type :=
              dict_get (KStr (lit "media_type")) (VStr (lit "application/octet-stream")) d in
            let headers :=
              [(lit "Content-Disposition",
                lit "attachment; filename=" ++ dquote ++ format_value filename ++ dquote)] in
            response <- lift (Response content media_type headers) ;;
            ret (File response)
        | _ => raise (HTTPException 500 (lit "File content must be bytes."))
        end
      else ret (Json result)
  | _ => ret (Json result)
  end.

Definition run_script_async
  (script_name method_name : str) (params : list (str * val)) (timeout : Z)
  : M reply :=
  module <- load_script script_name ;;
  found <- lift (hasattr module method_name) ;;
  if negb found then
    raise (HTTPException 404 (method_not_found method_name script_name))
  else
    method <- lift (getattr module method_name) ;;
    try_except
      (result <- wait_for_thread method params timeout ;;
       classify result)
      (fun e =>
         match e with
         | TimeoutError _ =>
             raise (HTTPException 408 (lit "Script execution timed out."))
         | TypeError _ =>
             raise (HTTPException 400
                      (lit "Error calling method '" ++ method_name ++ lit "': "
                       ++ str_of_exn e))
         | _ =>
             raise (HTTPException 500
                      (lit "Error executing method '" ++ method_name ++ lit "': "
                       ++ str_of_exn e))
         end).

(** The body of a POST to [/run]. *)
Record MethodRequest := {
  method : str;                    (* ["script_name.method_name"] *)
  params : list (str * val)
}.

(** The route handler: unpacking the split into two names raises
    [ValueError] unless there are exactly two parts.  The bounds on
    [timeout] are checked by the framework before the handler runs. *)
Definition run_method (request : MethodRequest) (timeout : Z) : M reply :=
  match split (ord ".") (method request) with
  | [script_name; method_name] =>
      run_script_async script_name method_name (params request) timeout
  | _ =>
      raise (HTTPException 400
               (lit "Invalid method format. Should be 'script_name.method_name'."))
  end.

End Dispatch.

End Main.

(** ** [scripts/ssh.py] *)

Module Ssh.
Import Py Eff.

(** *** Exceptions

    [e_class] is the [except] clause an exception falls under, [e_type] is
    [type(e).__name__] and [e_text] is [str(e)]. *)
Inductive exc_class :=
| SSHError                   (* raised by the argument checks *)
| AuthenticationException
| SSHException               (* other than authentication *)
| SocketError
| OtherException.

Record exc := {
  e_class : exc_class;
  e_type : str;
  e_text : str
}.

Definition io : Type -> Type := outcome exc.

(** *** The remote end

    What the SSH library answers is given as a script: for each call the
    function makes, the value returned or the exception raised.  The script
    of a channel has one entry per pass of the wait loop, so it describes a
    command that exits; every property below holds for every script. *)

Inductive host_policy := AutoAddPolicy | WarningPolicy | RejectPolicy.

(** One pass of the wait loop: for each stream, whether data is ready and
    what reading it gives. *)
Record poll := {
  recv_ready : option (io bytes);
  recv_stderr_ready : option (io bytes)
}.

Record channel := {
  exec_command : option exc;       (* [None]: the command started *)
  polls : list poll;               (* passes until [exit_status_ready()] *)
  recv : io bytes;                 (* the reads after completion *)
  recv_stderr : io bytes;
  recv_exit_status : Z;
  channel_exit : option exc        (* leaving the [with] block of the channel *)
}.

Inductive json_result :=
| Parsed (v : val)
| JSONDecodeError
| JsonFault (e : exc).

(** The readings of the timer are floats, each of them a rational number.
    Their difference and its rounding are computed in floating point, which
    gives neither the exact difference nor always the nearest hundredth, so
    both operations are taken as the platform has them. *)
Record remote := {
  connect : host_policy -> list (str * val) -> option exc;
  open_session : io channel;       (* [get_transport().open_session()] *)
  client_exit : option exc;        (* leaving the [with] block of the client *)
  decode : bytes -> io str;        (* [bytearray.decode()] *)
  json_loads : str -> json_result;
  perf_counter : nat -> Q;         (* successive readings of the timer *)
  float_sub : Q -> Q -> Q;         (* [a - b] on floats *)
  float_round : Q -> Q             (* [round(x, 2)] on a float *)
}.

(** What the function does to the outside, in order. *)
Inductive event :=
| Timer
| Connect (policy : host_policy) (args : list (str * val))
| OpenSession
| ExecCommand (command : val)
| CloseChannel
| CloseClient.

(** *** The result record *)

Record result := {
  status : str;
  exit_code : Z;
  stdout : val;
  stderr : str;
  error : str;
  execution_time : Q;
  host : val
}.

Definition set_stdout (v : val) (r : result) : result :=
  {| status := status r; exit_code := exit_code r; stdout := v;
     stderr := stderr r; error := error r;
     execution_time := execution_time r; host := host r |}.

Definition set_error (m : str) (r : result) : result :=
  {| status := status r; exit_code := exit_code r; stdout := stdout r;
     stderr := stderr r; error := m;
     execution_time := execution_time r; host := host r |}.

Definition set_execution_time (t : Q) (r : result) : result :=
  {| status := status r; exit_code := exit_code r; stdout := stdout r;
     stderr := stderr r; error := error r;
     execution_time := t; host := host r |}.

(** [result.update({'status': .., 'exit_code': .., 'stderr': ..})] *)
Definition update (st : str) (code : Z) (err : str) (r : result) : result :=
  {| status := st; exit_code := code; stdout := stdout r;
     stderr := err; error := error r;
     execution_time := execution_time r; host := host r |}.

(** *** State: the [result] dict being filled, and the events so far *)

Record state := {
  res : option result;     (* [None] until the dict is created *)
  trace : list event
}.

Definition T : Type -> Type := Eff.M state exc.

Definition emit (ev : event) : T unit :=
  modify (fun s => {| res := res s; trace := trace s ++ [ev] |}).

Definition assign (f : result -> result) : T unit :=
  modify (fun s => {| res := option_map f (res s); trace := trace s |}).

Definition create (r : result) : T unit :=
  modify (fun s => {| res := Some r; trace := trace s |}).

(** [with ... : body]: the exit runs on every path and may itself raise. *)
Definition with_exit {A} (closing : event) (exit_fault : option exc) (body : T A) : T A :=
  fun s =>
    let (r, s1) := body s in
    let s2 := {| res := res s1; trace := trace s1 ++ [closing] |} in
    match exit_fault with
    | Some e => (Raise e, s2)
    | None => (r, s2)
    end.

Local Open Scope py_scope.

(** *** Helpers of the standard library *)

(** The code points [str.isspace] holds for. *)
Definition isspace (c : char) : bool :=
  existsb (N.eqb c)
    [9; 10; 11; 12; 13; 28; 29; 30; 31; 32; 133; 160; 5760; 8192; 8193; 8194;
     8195; 8196; 8197; 8198; 8199; 8200; 8201; 8202; 8232; 8233; 8239; 8287;
     12288]%N.

Fixpoint lstrip (s : str) : str :=
  match s with
  | c :: rest => if isspace c then lstrip rest else s
  | [] => []
  end.

Definition strip (s : str) : str := rev (lstrip (rev (lstrip s))).

Definition nonempty (s : str) : bool :=
  match s with [] => false | _ => true end.

(** *** [execute_command] *)

Definition ssh_error (message : str) : exc :=
  {| e_class := SSHError; e_type := lit "SSHError"; e_text := message |}.

Definition unbound_local : exc :=
  {| e_class := OtherException; e_type := lit "UnboundLocalError";
     e_text := lit "result" |}.

Definition key_error (k : val) : exc :=
  {| e_class := OtherException; e_type := lit "KeyError";
     e_text := match k with VStr s => s | _ => [] end |}.

Definition is_str (v : val) (s : string) : bool :=
  match v with
  | VStr t => str_eqb t (lit s)
  | _ => false
  end.

(** [policy in ('auto', 'warning', 'strict')] *)
Definition policy_known (policy : val) : bool :=
  (is_str policy "auto" || is_str policy "warning" || is_str policy "strict")%bool.

(** The dict of policies, indexed by [policy]. *)
Definition policy_table (policy : val) : option host_policy :=
  if is_str policy "auto" then Some AutoAddPolicy
  else if is_str policy "warning" then Some WarningPolicy
  else if is_str policy "strict" then Some RejectPolicy
  else None.

Definition initial_result (host : val) : result :=
  {| status := lit "error"; exit_code := (-1)%Z; stdout := VNone; stderr := [];
     error := []; execution_time := 0%Q; host := host |}.

Definition timer_reads (tr : list event) : nat :=
  List.length (filter (fun ev => match ev with Timer => true | _ => false end) tr).

Definition read_stream (ready : option (io bytes)) (buf : bytes) : T bytes :=
  match ready with
  | None => ret buf
  | Some r => chunk <- lift r ;; ret (buf ++ chunk)
  end.

(** The loop [while not channel.exit_status_ready()]. *)
Fixpoint wait_loop (ps : list poll) (stdout stderr : bytes) : T (bytes * bytes) :=
  match ps with
  | [] => ret (stdout, stderr)
  | p :: rest =>
      stdout' <- read_stream (recv_ready p) stdout ;;
      stderr' <- read_stream (recv_stderr_ready p) stderr ;;
      wait_loop rest stdout' stderr'
  end.

Definition get_result : T result :=
  fun s => match res s with
           | Some r => (Ok r, s)
           | None => (Raise unbound_local, s)
           end.

Section Executor.

Variable env : remote.

Definition read_timer : T Q :=
  fun s => (Ok (perf_counter env (timer_reads (trace s))),
            {| res := res s; trace := trace s ++ [Timer] |}).

(** The body of the [with] block of the channel. *)
Definition run_channel (ch : channel) (command parse_json : val) : T unit :=
  emit (ExecCommand command) ;;;
  (match exec_command ch with
   | Some e => raise e
   | None => ret tt
   end) ;;;
  bufs <- wait_loop (polls ch) [] [] ;;
  last_out <- lift (recv ch) ;;
  last_err <- lift (recv_stderr ch) ;;
  let stdout := fst bufs ++ last_out in
  let stderr := snd bufs ++ last_err in
  let exit_code := recv_exit_status ch in
  decoded_out <- lift (decode env stdout) ;;
  let stdout_str := strip decoded_out in
  decoded_err <- lift (decode env stderr) ;;
  let stderr_str := strip decoded_err in
  (if (truthy parse_json && nonempty stdout_str)%bool then
     match json_loads env stdout_str with
     | Parsed v => assign (set_stdout v)
     | JSONDecodeError => assign (set_stdout (VStr stdout_str))
     | JsonFault e => raise e
     end
   else
     assign (set_stdout (if nonempty stdout_str then VStr stdout_str else VNone))) ;;;
  assign (update (if Z.eqb exit_code 0 then lit "success" else lit "error")
                 exit_code stderr_str).

Definition connect_args (host username password port timeout key_filename : val)
  : list (str * val) :=
  [(lit "hostname", host); (lit "port", port); (lit "username", username);
   (lit "timeout", timeout); (lit "banner_timeout", VInt 30);
   (lit "auth_timeout", timeout)]
  ++ (if truthy password then [(lit "password", password)] else [])
  ++ (if truthy key_filename then [(lit "key_filename", key_filename)] else []).

(** The names of the required arguments left out. *)
Definition missing_required (host username command : val) : list str :=
  (if truthy host then [] else [lit "host"]) ++
  (if truthy username then [] else [lit "username"]) ++
  (if truthy command then [] else [lit "command"]).

Definition handle (e : exc) : T unit :=
  match e_class e with
  | AuthenticationException =>
      assign (set_error (lit "Authentication failed: Check credentials"))
  | SSHException | SocketError =>
      assign (set_error (lit "Connection error: " ++ e_type e ++ lit ": " ++ e_text e))
  | _ =>
      assign (set_error (lit "Unexpected error: " ++ e_type e ++ lit ": " ++ e_text e))
  end.

(** The body of the [with] block of the client. *)
Definition client_body
  (host command username password port timeout key_filename policy
   parse_json : val) : T unit :=
  host_policy <- match policy_table policy with
                 | Some p => ret p
                 | None => raise (key_error policy)
                 end ;;
  let args := connect_args host username password port timeout key_filename in
  emit (Connect host_policy args) ;;;
  (match connect env host_policy args with
   | Some e => raise e
   | None => ret tt
   end) ;;;
  emit OpenSession ;;;
  ch <- lift (open_session env) ;;
  with_exit CloseChannel (channel_exit ch)
    (run_channel ch command parse_json).

Definition execute_command
  (host command username password port timeout key_filename policy
   parse_json buffer_size : val) : T result :=
  let errors := missing_required host username command in
  (match errors with
   | [] => ret tt
   | _ => raise (ssh_error (lit "Missing required parameters: " ++ join (lit ", ") errors))
   end) ;;;
  (if negb (policy_known policy) then
     raise (ssh_error (lit "Invalid host policy. Valid options: auto, warning, strict"))
   else ret tt) ;;;
  create (initial_result host) ;;;
  start_time <- read_timer ;;
  try_except_finally
    (with_exit CloseClient (client_exit env)
       (client_body host command username password port timeout key_filename
                    policy parse_json))
    handle
    (t <- read_timer ;;
     assign (set_execution_time (float_round env (float_sub env t start_time)))) ;;;
  get_result.

End Executor.

(** A call starts with no [result] dict and nothing done yet. *)
Definition start : state := {| res := None; trace := [] |}.

End Ssh.

(** * Reference notions and sample data *)

Module Spec.
Import Py Eff Main.

(** ASCII letters, digits and the underscore, by code point. *)
Definition ascii_letter (c : char) : Prop :=
  (65 <= c /\ c <= 90)%N \/ (97 <= c /\ c <= 122)%N.

Definition ascii_digit (c : char) : Prop := (48 <= c /\ c <= 57)%N.

Definition underscore (c : char) : Prop := c = 95%N.

Definition identifier_char (c : char) : Prop :=
  ascii_letter c \/ ascii_digit c \/ underscore c.

(** The world after [module_from_spec] and [exec_module] for [name]. *)
Definition after_exec (name : str) (w : world) : world :=
  log_exec name (snd (alloc w)).


(** The mapping fits the signature: every key is a name the method accepts
    by keyword (or a var-keyword parameter takes it), and every parameter
    without a default is given. *)
Definition key_accepted (sg : signature) (k : str) : Prop :=
  sig_var_keyword sg = true \/
  exists p, In p (sig_params sg) /\ p_name p = k /\ p_kind p <> PositionalOnly.

Definition param_filled (params : list (str * val)) (p : param) : Prop :=
  p_default p <> None \/
  (p_kind p <> PositionalOnly /\ In (p_name p) (map fst params)).

Definition keys_match (sg : signature) (params : list (str * val)) : Prop :=
  (forall k, In k (map fst params) -> key_accepted sg k) /\
  (forall p, In p (sig_params sg) -> param_filled params p).

(** The invocation outlasts the timeout. *)
Definition exceeds (aw : invocation) (timeout : Z) : Prop :=
  match aw with
  | Completes d _ => (inject_Z timeout < d)%Q
  | Hangs => True
  end.







(** [n] further loads of the same name. *)
Fixpoint reload (n : nat) (name : str) (w : world) : world :=
  match n with
  | O => w
  | S k => reload k name (snd (load_script name w))
  end.

(** The cache has one entry per name and at most [maxsize] entries. *)
Definition cache_bounded (w : world) : Prop :=
  NoDup (map fst (cache w)) /\ (List.length (cache w) <= maxsize)%nat.

(** Every entry of the cache is a module loaded under its own, safe name. *)
Definition cache_named (w : world) : Prop :=
  forall k m, In (k, m) (cache w) ->
              m_name m = k /\ is_script_name_safe k = true.

(** The module objects in the cache are pairwise distinct and older than
    the next fresh identity. *)
Definition ids_fresh (w : world) : Prop :=
  NoDup (map (fun e => m_id (snd e)) (cache w)) /\
  forall k m, In (k, m) (cache w) -> (m_id m < next_id w)%nat.

(** The status codes the engine answers failures with. *)
Definition engine_status (c : Z) : Prop :=
  c = 400%Z \/ c = 404%Z \/ c = 408%Z \/ c = 500%Z.

(** How many dots a method string has. *)
Definition dots (s : str) : nat := count_occ N.eq_dec s (ord ".").

(** The cache agrees with the files: whatever it holds was loaded from a
    source that is still there.  True of a fresh process, and kept by every
    load as long as the files stay. *)
Definition cache_sound (w : world) : Prop :=
  forall name m,
    assoc name (cache w) = Some m ->
    exists src attrs,
      storage w (path_of name) = Some src /\ top_level src = Initialised attrs.

End Spec.

(** A handler store with one good module, one that fails to load, and
    nothing else. *)
Module Sample.
Import Py Eff Main.

Definition required (name : string) : param :=
  {| p_name := lit name; p_kind := PositionalOrKeyword; p_default := None |}.

Definition no_params : signature :=
  {| sig_params := []; sig_var_keyword := false |}.

(** [def greet(name)], returning a dict after a tenth of a second. *)
Definition greet : function :=
  {| f_name := lit "greet";
     f_sig := {| sig_params := [required "name"]; sig_var_keyword := false |};
     f_body := fun args =>
       Completes (1 # 10)
         (Ok (VDict [(KStr (lit "hello"),
                           match assoc (lit "name") args with
                           | Some v => v
                           | None => VNone
                           end)])) |}.

(** [def download()], returning a file result. *)
Definition download : function :=
  {| f_name := lit "download"; f_sig := no_params;
     f_body := fun _ =>
       Completes (1 # 10)
         (Ok (VDict [(KStr (lit "content"), VBytes [97; 98; 99]%N);
                          (KStr (lit "filename"), VStr (lit "a.bin"))])) |}.

(** [def text()], whose [content] is a [str]. *)
Definition text : function :=
  {| f_name := lit "text"; f_sig := no_params;
     f_body := fun _ =>
       Completes (1 # 10)
         (Ok (VDict [(KStr (lit "content"), VStr (lit "not-bytes"))])) |}.

(** [def nap()], sleeping for ten seconds. *)
Definition nap : function :=
  {| f_name := lit "nap"; f_sig := no_params;
     f_body := fun _ => Completes 10 (Ok VNone) |}.

(** [def spin()], which never returns. *)
Definition spin : function :=
  {| f_name := lit "spin"; f_sig := no_params; f_body := fun _ => Hangs |}.

(** [def add()], whose body adds an [int] and a [str]. *)
Definition add : function :=
  {| f_name := lit "add"; f_sig := no_params;
     f_body := fun _ =>
       Completes (1 # 100)
         (Raise (TypeError
                    (lit "unsupported operand type(s) for +: 'int' and 'str'"))) |}.

Definition demo_attrs : list (str * attr) :=
  [(lit "__name__", Data (VStr (lit "demo")));
   (lit "VERSION", Data (VInt 5));
   (lit "greet", Func greet);
   (lit "download", Func download);
   (lit "text", Func text);
   (lit "nap", Func nap);
   (lit "spin", Func spin);
   (lit "add", Func add)].

Definition demo_file : source_file :=
  {| has_loader := true; top_level := Initialised demo_attrs;
     module_getattr := None |}.

Definition broken_file : source_file :=
  {| has_loader := true;
     top_level := InitRaises (OtherException (lit "SyntaxError")
                                             (lit "invalid syntax"));
     module_getattr := None |}.

Definition files (path : str) : option source_file :=
  if str_eqb path (lit "scripts/demo.py") then Some demo_file
  else if str_eqb path (lit "scripts/broken.py") then Some broken_file
  else None.

(** A fresh process on a machine with one processor: the pool has five
    workers, all free. *)
Definition boot : world :=
  {| storage := files; cache := []; executed := []; next_id := 0; now := 0;
     max_workers := 5; running := [] |}.

Definition show (v : val) : str := lit "<object>".

(** A process whose cache is full: 32 modules loaded earlier. *)
Definition filler (i : nat) : str * module :=
  let name := lit "m" ++ str_of_int (Z.of_nat i) in
  (name, {| m_id := i; m_name := name; m_attrs := []; m_getattr := None |}).

Definition crowded : world :=
  {| storage := files; cache := map filler (seq 0 32); executed := [];
     next_id := 32; now := 0; max_workers := 5; running := [] |}.

(** [def fail()], raising [ValueError]; [def deny()], raising an
    [HTTPException] of its own; [def late()], raising [TimeoutError]. *)
Definition fail : function :=
  {| f_name := lit "fail"; f_sig := no_params;
     f_body := fun _ =>
       Completes (1 # 10)
         (Raise (OtherException (lit "ValueError") (lit "bad value"))) |}.

Definition deny : function :=
  {| f_name := lit "deny"; f_sig := no_params;
     f_body := fun _ =>
       Completes (1 # 10) (Raise (HTTPException 403 (lit "Forbidden"))) |}.

Definition late : function :=
  {| f_name := lit "late"; f_sig := no_params;
     f_body := fun _ => Completes (1 # 10) (Raise (TimeoutError (lit "timed out"))) |}.

(** [def report()], returning a file whose name is in Cyrillic letters;
    [def blob()], returning a file whose media type is [bytes]. *)
Definition report_name : str := [1086; 1090; 1095; 1105; 1090; 46; 98; 105; 110]%N.

Definition report : function :=
  {| f_name := lit "report"; f_sig := no_params;
     f_body := fun _ =>
       Completes (1 # 10)
         (Ok (VDict [(KStr (lit "content"), VBytes [97; 98; 99]%N);
                     (KStr (lit "filename"), VStr report_name)])) |}.

Definition blob : function :=
  {| f_name := lit "blob"; f_sig := no_params;
     f_body := fun _ =>
       Completes (1 # 10)
         (Ok (VDict [(KStr (lit "content"), VBytes [97; 98; 99]%N);
                     (KStr (lit "media_type"), VBytes [97]%N)])) |}.

Definition tools_file : source_file :=
  {| has_loader := true;
     top_level := Initialised [(lit "fail", Func fail); (lit "deny", Func deny);
                               (lit "late", Func late);
                               (lit "report", Func report);
                               (lit "blob", Func blob)];
     module_getattr := None |}.

(** A module whose [__getattr__] looks names up in a table and lets the
    [KeyError] of a missing name through. *)
Definition lazy_file : source_file :=
  {| has_loader := true;
     top_level := Initialised [];
     module_getattr :=
       Some (fun name => Raise (OtherException (lit "KeyError") (quote name))) |}.

Definition more_files (path : str) : option source_file :=
  if str_eqb path (lit "scripts/tools.py") then Some tools_file
  else if str_eqb path (lit "scripts/lazy.py") then Some lazy_file
  else files path.

Definition boot2 : world :=
  {| storage := more_files; cache := []; executed := []; next_id := 0; now := 0;
     max_workers := 5; running := [] |}.



End Sample.

Module SshSpec.
Import Py Eff Ssh.

(** [status] says success exactly when the exit code is zero. *)
Definition consistent (r : result) : Prop :=
  status r = lit "success" <-> exit_code r = 0%Z.

(** The output fields are as the function first set them. *)
Definition untouched (r : result) : Prop :=
  status r = lit "error" /\ exit_code r = (-1)%Z /\
  stdout r = VNone /\ stderr r = [].


(** The policy is none of the three known ones. *)
Definition policy_unknown (policy : val) : Prop :=
  policy <> VStr (lit "auto") /\ policy <> VStr (lit "warning") /\
  policy <> VStr (lit "strict").

(** The [error] text by kind of failure: authentication, transport or
    socket, anything else. *)
Definition error_text (e : exc) : str :=
  match e_class e with
  | AuthenticationException => lit "Authentication failed: Check credentials"
  | SSHException | SocketError =>
      lit "Connection error: " ++ e_type e ++ lit ": " ++ e_text e
  | _ => lit "Unexpected error: " ++ e_type e ++ lit ": " ++ e_text e
  end.


(** Leaving the [with] blocks raises nothing. *)
Definition exits_quietly (env : remote) : Prop :=
  client_exit env = None /\
  forall ch, open_session env = Ok ch -> channel_exit ch = None.

(** A step that leaves the [result] dict alone. *)
Definition silent {A : Type} (m : T A) : Prop :=
  forall s, res (snd (m s)) = res s.

(** A step that, if it raises, has left the [result] dict alone. *)
Definition atomic {A : Type} (m : T A) : Prop :=
  forall s e s', m s = (Raise e, s') -> res s' = res s.

(** A step that never raises. *)
Definition total {A : Type} (m : T A) : Prop :=
  forall s, exists a s', m s = (Ok a, s').

(** The [result] dict exists and satisfies [P]. *)
Definition holds (P : result -> Prop) (s : state) : Prop :=
  exists r, res s = Some r /\ P r.

(** A step that keeps [P] of the [result] dict, however it ends. *)
Definition keeps (P : result -> Prop) {A : Type} (m : T A) : Prop :=
  forall s, holds P s -> holds P (snd (m s)).

(** A step that leaves the trace alone. *)
Definition quiet {A : Type} (m : T A) : Prop :=
  forall s, trace (snd (m s)) = trace s.

(** What one read of a pass contributes, and whether it raises. *)
Definition chunk (ready : option (io bytes)) : bytes :=
  match ready with
  | Some (Ok b) => b
  | _ => []
  end.

Definition readable (ready : option (io bytes)) : Prop :=
  forall e, ready <> Some (Raise e).

(** The bytes the passes deliver on each stream, in order. *)
Definition out_chunks (ps : list poll) : bytes :=
  flat_map (fun p => chunk (recv_ready p)) ps.

Definition err_chunks (ps : list poll) : bytes :=
  flat_map (fun p => chunk (recv_stderr_ready p)) ps.

(** No read of the wait loop raises. *)
Definition clean (ps : list poll) : Prop :=
  Forall (fun p => readable (recv_ready p) /\ readable (recv_stderr_ready p)) ps.

(** The command runs to its end on channel [ch] and its output decodes to
    the texts [out] and [err]. *)
Definition completes (env : remote) (p : host_policy) (args : list (str * val))
           (ch : channel) (out err : str) : Prop :=
  connect env p args = None /\
  open_session env = Ok ch /\
  exec_command ch = None /\
  clean (polls ch) /\
  exists a b,
    recv ch = Ok a /\ recv_stderr ch = Ok b /\
    decode env (out_chunks (polls ch) ++ a) = Ok out /\
    decode env (err_chunks (polls ch) ++ b) = Ok err.

(** What becomes of the decoded, stripped output text. *)
Definition stdout_value (env : remote) (parse_json : val) (t : str) : io val :=
  if (truthy parse_json && nonempty t)%bool then
    match json_loads env t with
    | Parsed v => Ok v
    | JSONDecodeError => Ok (VStr t)
    | JsonFault e => Raise e
    end
  else Ok (if nonempty t then VStr t else VNone).


(** What a call that passed the checks does to the outside. *)
Definition session_events (env : remote) (p : host_policy)
           (args : list (str * val)) (command : val) : list event :=
  match connect env p args with
  | Some _ => []
  | None =>
      OpenSession ::
      match open_session env with
      | Ok _ => [ExecCommand command; CloseChannel]
      | Raise _ => []
      end
  end.

Definition effects (env : remote) (p : host_policy) (args : list (str * val))
           (command : val) : list event :=
  [Timer; Connect p args] ++ session_events env p args command
  ++ [CloseClient; Timer].

End SshSpec.

(** Two remote ends: one that cannot be reached, one that runs the command
    and prints a JSON object. *)
Module SshSample.
Import Py Eff Ssh.

Definition timed_out : exc :=
  {| e_class := SocketError; e_type := lit "TimeoutError";
     e_text := lit "timed out" |}.

Definition clock (n : nat) : Q :=
  match n with
  | O => 100
  | _ => 110
  end.

(** On whole numbers of seconds, as the sample readings are, the float
    operations are exact. *)
Definition exact_sub (a b : Q) : Q := Qred (a - b).
Definition exact_round (x : Q) : Q := x.

Definition unreachable : remote :=
  {| connect := fun _ _ => Some timed_out;
     open_session := Raise timed_out;
     client_exit := None;
     decode := fun b => Ok b;
     json_loads := fun _ => JSONDecodeError;
     perf_counter := clock;
     float_sub := exact_sub;
     float_round := exact_round |}.

(** The text of the JSON object with the one entry [a] set to 1, and a line
    feed. *)
Definition json_text : str := [123; 34; 97; 34; 58; 49; 125]%N.
Definition output : bytes := json_text ++ [10]%N.

Definition session : channel :=
  {| exec_command := None;
     polls := [{| recv_ready := Some (Ok output); recv_stderr_ready := None |}];
     recv := Ok [];
     recv_stderr := Ok [];
     recv_exit_status := 0;
     channel_exit := None |}.

Definition echo_host : remote :=
  {| connect := fun _ _ => None;
     open_session := Ok session;
     client_exit := None;
     decode := fun b => Ok b;
     json_loads := fun s =>
       if str_eqb s json_text then Parsed (VDict [(KStr (lit "a"), VInt 1)])
       else JSONDecodeError;
     perf_counter := clock;
     float_sub := exact_sub;
     float_round := exact_round |}.



(** A remote end that prints the same text, with a parser that gives up on
    it. *)
Definition too_deep : exc :=
  {| e_class := OtherException; e_type := lit "RecursionError";
     e_text := lit "maximum recursion depth exceeded while decoding a JSON array from a unicode string" |}.

Definition deep_host : remote :=
  {| connect := connect echo_host;
     open_session := open_session echo_host;
     client_exit := None;
     decode := decode echo_host;
     json_loads := fun _ => JsonFault too_deep;
     perf_counter := clock;
     float_sub := exact_sub;
     float_round := exact_round |}.

Definition run (env : remote) (host command username policy : val) :=
  execute_command env host command username (VStr (lit "secret")) (VInt 22)
                  (VInt 10) VNone policy (VBool true) (VInt 65535) start.

End SshSample.

(** * Properties *)

(** ** Strings and values *)

Module PyFacts.
Import Py.

Lemma str_eqb_eq (a b : str) : str_eqb a b = true <-> a = b.
Proof.
  unfold str_eqb. destruct (list_eq_dec N.eq_dec a b); split; congruence.
Qed.

Lemma str_eqb_refl (a : str) : str_eqb a a = true.
Proof. now apply str_eqb_eq. Qed.

Lemma str_eqb_neq (a b : str) : str_eqb a b = false <-> a <> b.
Proof.
  unfold str_eqb. destruct (list_eq_dec N.eq_dec a b); split; congruence.
Qed.

Lemma str_eqb_sym (a b : str) : str_eqb a b = str_eqb b a.
Proof.
  destruct (str_eqb b a) eqn:E.
  - apply str_eqb_eq in E. subst. apply str_eqb_refl.
  - apply str_eqb_neq in E. apply str_eqb_neq. congruence.
Qed.

End PyFacts.

(** ** The matcher decides the language of a pattern *)

Module ReFacts.
Import Py Re.

Lemma nullable_lang (r : regex) : nullable r = true <-> lang r [].
Proof.
  induction r as [ | | cs | r1 IH1 r2 IH2 | r1 IH1 r2 IH2 | r IH]; simpl.
  - split; [discriminate | intro H; inversion H].
  - split; [constructor | reflexivity].
  - split; [discriminate | intro H; inversion H].
  - rewrite andb_true_iff, IH1, IH2. split.
    + intros [H1 H2]. change (@nil char) with (@nil char ++ []).
      now constructor.
    + intro H. inversion H as [ | | ? ? s1 s2 L1 L2 | | | | ]; subst.
      match goal with E : _ ++ _ = [] |- _ =>
        apply app_eq_nil in E; destruct E; subst end.
      now split.
  - rewrite orb_true_iff, IH1, IH2. split.
    + intros [H | H]; [now apply LAltL | now apply LAltR].
    + intro H. inversion H; subst; tauto.
  - split; [constructor | reflexivity].
Qed.

(** A non-empty word of [r*] starts with a non-empty word of [r]. *)
Lemma star_cons (r : regex) (c : char) (s : str) :
  lang (Star r) (c :: s) ->
  exists s1 s2, s = s1 ++ s2 /\ lang r (c :: s1) /\ lang (Star r) s2.
Proof.
  intro H. remember (Star r) as r' eqn:Er. remember (c :: s) as w eqn:Ew.
  revert Er Ew.
  induction H as [ | | | | | | r0 s1 s2 L1 _ L2 IH2]; intros Er Ew;
    try discriminate.
  injection Er as ->.
  destruct s1 as [| c1 s1]; simpl in Ew.
  - now apply IH2.
  - injection Ew as E1 E2. subst. now exists s1, s2.
Qed.

Lemma deriv_lang (r : regex) : forall c s, lang (deriv c r) s <-> lang r (c :: s).
Proof.
  induction r as [ | | cs | r1 IH1 r2 IH2 | r1 IH1 r2 IH2 | r IH];
    intros c s; simpl.
  - split; intro H; inversion H.
  - split; intro H; inversion H.
  - destruct (in_charset cs c) eqn:E; split; intro H.
    + inversion H; subst. now constructor.
    + inversion H; subst. constructor.
    + inversion H.
    + inversion H; subst. congruence.
  - assert (Hcat : lang (Cat (deriv c r1) r2) s -> lang (Cat r1 r2) (c :: s)).
    { intro H. inversion H as [ | | ? ? s1 s2 L1 L2 | | | | ]; subst.
      change (c :: s1 ++ s2) with ((c :: s1) ++ s2).
      constructor; [now apply IH1 | assumption]. }
    assert (Hinv : lang (Cat r1 r2) (c :: s) ->
                   lang (Cat (deriv c r1) r2) s \/
                   (lang r1 [] /\ lang (deriv c r2) s)).
    { intro H. inversion H as [ | | ? ? s1 s2 L1 L2 | | | | ]; subst.
      destruct s1 as [| c1 s1]; simpl in *.
      - right. subst. split; [assumption | now apply IH2].
      - match goal with E : _ :: _ = _ :: _ |- _ => injection E as E1 E2 end.
        subst. left. constructor; [now apply IH1 | assumption]. }
    destruct (nullable r1) eqn:N1; split; intro H.
    + inversion H; subst.
      * now apply Hcat.
      * change (c :: s) with ([] ++ c :: s).
        constructor; [now apply nullable_lang | now apply IH2].
    + destruct (Hinv H) as [H1 | [_ H2]]; [now apply LAltL | now apply LAltR].
    + now apply Hcat.
    + destruct (Hinv H) as [H1 | [H1 _]]; [assumption |].
      apply nullable_lang in H1. congruence.
  - split; intro H; inversion H; subst;
      solve [apply LAltL; now apply IH1 | apply LAltR; now apply IH2].
  - split; intro H.
    + inversion H as [ | | ? ? s1 s2 L1 L2 | | | | ]; subst.
      change (c :: s1 ++ s2) with ((c :: s1) ++ s2).
      constructor; [now apply IH | assumption].
    + apply star_cons in H. destruct H as (s1 & s2 & -> & L1 & L2).
      constructor; [now apply IH | assumption].
Qed.

Lemma fullmatch_lang (s : str) : forall r, fullmatch r s = true <-> lang r s.
Proof.
  induction s as [| c s IH]; intro r; simpl.
  - apply nullable_lang.
  - rewrite IH. apply deriv_lang.
Qed.

(** Words of a repeated character set. *)
Lemma lang_star_set (cs : charset) (s : str) :
  lang (Star (Set_ cs)) s <-> Forall (fun c => in_charset cs c = true) s.
Proof.
  split.
  - intro H. remember (Star (Set_ cs)) as r eqn:Er. revert Er.
    induction H as [ | | | | | | r0 s1 s2 L1 _ L2 IH2]; intro Er;
      try discriminate.
    + constructor.
    + injection Er as ->. inversion L1; subst. simpl.
      constructor; [assumption | now apply IH2].
  - induction 1 as [| c s Hc _ IH].
    + constructor.
    + change (c :: s) with ([c] ++ s). constructor; [now constructor | assumption].
Qed.

Lemma lang_plus_set (cs : charset) (s : str) :
  lang (Plus (Set_ cs)) s <->
  s <> [] /\ Forall (fun c => in_charset cs c = true) s.
Proof.
  unfold Plus. split.
  - intro H. inversion H as [ | | ? ? s1 s2 L1 L2 | | | | ]; subst.
    inversion L1; subst. simpl. split; [discriminate |].
    constructor; [assumption | now apply lang_star_set].
  - intros [Hne Hall]. destruct s as [| c s]; [congruence |].
    inversion Hall; subst.
    change (c :: s) with ([c] ++ s).
    constructor; [now constructor | now apply lang_star_set].
Qed.

End ReFacts.

(** ** [main.py]: the identifier validator *)

Module ValidatorFacts.
Import Py Eff Re Main Spec.

Lemma name_charset_spec (c : char) :
  in_charset name_charset c = true <-> identifier_char c.
Proof.
  unfold identifier_char, ascii_letter, ascii_digit, underscore.
  cbn [in_charset name_charset existsb in_range fst snd].
  change (ord "a") with 97%N. change (ord "z") with 122%N.
  change (ord "A") with 65%N. change (ord "Z") with 90%N.
  change (ord "0") with 48%N. change (ord "9") with 57%N.
  change (ord "_") with 95%N.
  unfold in_range; cbn [fst snd].
  rewrite !orb_true_iff, !andb_true_iff, !N.leb_le. intuition (try discriminate; lia).
Qed.

(** The validator accepts exactly the non-empty strings of identifier
    characters. *)
Lemma is_script_name_safe_iff (s : str) :
  is_script_name_safe s = true <-> s <> [] /\ Forall identifier_char s.
Proof.
  unfold is_script_name_safe, name_pattern.
  rewrite ReFacts.fullmatch_lang.
  rewrite ReFacts.lang_plus_set.
  split; intros [Hne Hall]; split; try assumption;
    eapply Forall_impl; try eassumption; intros c Hc; now apply name_charset_spec.
Qed.

Example safe_name_accepted : is_script_name_safe (lit "ssh_v2") = true.
Proof. reflexivity. Qed.

Example empty_name_rejected : is_script_name_safe [] = false.
Proof. reflexivity. Qed.

Example dotted_name_rejected : is_script_name_safe (lit "ssh.py") = false.
Proof. reflexivity. Qed.

Example null_byte_rejected : is_script_name_safe [115; 0]%N = false.
Proof. reflexivity. Qed.

Example trailing_newline_rejected : is_script_name_safe [115; 10]%N = false.
Proof. reflexivity. Qed.

Example cyrillic_letter_rejected : is_script_name_safe [115; 1089]%N = false.
Proof. reflexivity. Qed.

(** C1. A string with any character outside [A-Za-z0-9_] is not a safe
    script name: [is_script_name_safe] returns [False] for it, wherever the
    character stands (so a dot, a slash, white space or a null byte anywhere
    makes the name unsafe). *)
Theorem is_script_name_safe_rejects (s : str) (c : char) :
  In c s -> ~ identifier_char c -> is_script_name_safe s = false.
Proof.
  intros Hin Hbad.
  destruct (is_script_name_safe s) eqn:E; [| reflexivity].
  apply is_script_name_safe_iff in E. destruct E as [_ Hall].
  rewrite Forall_forall in Hall. now apply Hall in Hin.
Qed.

Lemma is_script_name_safe_rejects_witness :
  is_script_name_safe (lit "../ssh") = false.
Proof.
  apply (@is_script_name_safe_rejects (lit "../ssh") (ord "/")).
  - vm_compute. tauto.
  - unfold identifier_char, ascii_letter, ascii_digit, underscore.
    change (ord "/") with 47%N. lia.
Defined.

End ValidatorFacts.

(** ** [main.py]: the module cache *)

Module LoaderFacts.
Import Py Eff Re Main Spec PyFacts.

Lemma assoc_lru_store (k : str) (m : module) (c : list (str * module)) :
  assoc k (lru_store k m c) = Some m.
Proof. unfold lru_store. simpl. now rewrite str_eqb_refl. Qed.

Lemma assoc_lru_touch (k : str) (m : module) (c : list (str * module)) :
  assoc k (lru_touch k m c) = Some m.
Proof. unfold lru_touch. simpl. now rewrite str_eqb_refl. Qed.

Lemma init_count_run (name : str) (w w' : world) :
  executed w' = executed w ++ [name] ->
  init_count name w' = S (init_count name w).
Proof.
  unfold init_count. intros ->.
  rewrite filter_app, length_app. simpl. rewrite str_eqb_refl. simpl. lia.
Qed.

Lemma init_count_log_exec (name : str) (w : world) :
  init_count name (log_exec name w) = S (init_count name w).
Proof. now apply init_count_run. Qed.

(** A hit returns the stored module and runs nothing. *)
Lemma load_script_hit (name : str) (m : module) (w : world) :
  assoc name (cache w) = Some m ->
  load_script name w = (Ok m, set_cache (lru_touch name m (cache w)) w).
Proof.
  intro H. unfold load_script, lru_cache, bind, get. now rewrite H.
Qed.

(** A miss runs the function and stores what it returns, not what it
    raises. *)
Lemma load_script_miss (name : str) (w : world) :
  assoc name (cache w) = None ->
  load_script name w =
  match load_script_wrapped name w with
  | (Ok m, w') => (Ok m, set_cache (lru_store name m (cache w')) w')
  | (Raise e, w') => (Raise e, w')
  end.
Proof.
  intro H. unfold load_script, lru_cache, bind, get. rewrite H.
  destruct (load_script_wrapped name w) as [[m | e] w']; reflexivity.
Qed.

Lemma load_script_wrapped_ok (name : str) (w : world) (src : source_file)
      (attrs : list (str * attr)) :
  is_script_name_safe name = true ->
  storage w (path_of name) = Some src ->
  has_loader src = true ->
  top_level src = Initialised attrs ->
  load_script_wrapped name w =
  (Ok {| m_id := next_id w; m_name := name; m_attrs := attrs;
         m_getattr := module_getattr src |},
   after_exec name w).
Proof.
  intros Hsafe Hfile Hld Htop.
  unfold load_script_wrapped, bind, get, try_except, modify, alloc, ret.
  rewrite Hsafe. simpl. rewrite Hfile, Hld. simpl. now rewrite Htop.
Qed.

Lemma load_script_wrapped_missing (name : str) (w : world) :
  is_script_name_safe name = true ->
  storage w (path_of name) = None ->
  load_script_wrapped name w =
  (Raise (HTTPException 404 (lit "Script '" ++ name ++ lit "' not found.")), w).
Proof.
  intros Hsafe Hfile. unfold load_script_wrapped, bind, get, raise.
  rewrite Hsafe. simpl. now rewrite Hfile.
Qed.

Lemma load_script_wrapped_raises (name : str) (w : world) (src : source_file)
      (e : exn) :
  is_script_name_safe name = true ->
  storage w (path_of name) = Some src ->
  has_loader src = true ->
  top_level src = InitRaises e ->
  load_script_wrapped name w =
  (Raise (HTTPException 500 (lit "Error loading script: " ++ str_of_exn e)),
   after_exec name w).
Proof.
  intros Hsafe Hfile Hld Htop.
  unfold load_script_wrapped, bind, get, try_except, modify, alloc, raise.
  rewrite Hsafe. simpl. rewrite Hfile, Hld. simpl. now rewrite Htop.
Qed.

(** Whatever it does, [load_script] leaves the clock alone. *)
Lemma load_script_now (name : str) (w : world) :
  now (snd (load_script name w)) = now w.
Proof.
  unfold load_script, lru_cache, bind, get.
  destruct (assoc name (cache w)) as [m |]; [reflexivity |].
  unfold load_script_wrapped.
  destruct (is_script_name_safe name); [| reflexivity].
  unfold bind, get, try_except. simpl.
  destruct (storage w (path_of name)) as [src |]; [| reflexivity].
  destruct (has_loader src); [| reflexivity]. simpl.
  destruct (top_level src); reflexivity.
Qed.

(** Nor does it touch the worker threads. *)
Lemma load_script_workers (name : str) (w : world) :
  max_workers (snd (load_script name w)) = max_workers w /\
  running (snd (load_script name w)) = running w.
Proof.
  unfold load_script, lru_cache, bind, get.
  destruct (assoc name (cache w)) as [m |]; [now split |].
  unfold load_script_wrapped.
  destruct (is_script_name_safe name); [| now split].
  unfold bind, get, try_except. simpl.
  destruct (storage w (path_of name)) as [src |]; [| now split].
  destruct (has_loader src); [| now split]. simpl.
  destruct (top_level src); now split.
Qed.

Lemma assoc_remove_key_same {A : Type} (k : str) (c : list (str * A)) :
  assoc k (remove_key k c) = None.
Proof.
  induction c as [| [k0 a] c IH]; simpl; [reflexivity |].
  destruct (str_eqb k k0) eqn:E; simpl; [assumption | now rewrite E].
Qed.

Lemma assoc_remove_key {A : Type} (k k' : str) (c : list (str * A)) (a : A) :
  assoc k' (remove_key k c) = Some a -> assoc k' c = Some a.
Proof.
  induction c as [| [k0 a0] c IH]; simpl; [discriminate |].
  destruct (str_eqb k k0) eqn:E; simpl.
  - apply str_eqb_eq in E. subst k0. intro H.
    destruct (str_eqb k' k) eqn:E'; [| now apply IH].
    apply str_eqb_eq in E'. subst k'.
    now rewrite assoc_remove_key_same in H.
  - destruct (str_eqb k' k0); [trivial | apply IH].
Qed.

Lemma assoc_firstn {A : Type} (k : str) (n : nat) (c : list (str * A)) (a : A) :
  assoc k (firstn n c) = Some a -> assoc k c = Some a.
Proof.
  revert c. induction n as [| n IH]; intros [| [k0 a0] c]; simpl;
    try discriminate.
  destruct (str_eqb k k0); [trivial | apply IH].
Qed.

Lemma assoc_lru_touch_inv (k k' : str) (m m' : module) (c : list (str * module)) :
  assoc k' (lru_touch k m c) = Some m' ->
  (k' = k /\ m' = m) \/ assoc k' c = Some m'.
Proof.
  unfold lru_touch. cbn [assoc].
  destruct (str_eqb k' k) eqn:E; intro H.
  - left. apply str_eqb_eq in E. split; congruence.
  - right. now apply assoc_remove_key in H.
Qed.

Lemma assoc_lru_store_inv (k k' : str) (m m' : module) (c : list (str * module)) :
  assoc k' (lru_store k m c) = Some m' ->
  (k' = k /\ m' = m) \/ assoc k' c = Some m'.
Proof.
  unfold lru_store. cbn [assoc].
  destruct (str_eqb k' k) eqn:E; intro H.
  - left. apply str_eqb_eq in E. split; congruence.
  - right. now apply assoc_firstn in H.
Qed.

(** The function under the decorator touches neither cache, files nor
    clock. *)
Lemma load_script_wrapped_frame (name : str) (w : world) :
  cache (snd (load_script_wrapped name w)) = cache w /\
  storage (snd (load_script_wrapped name w)) = storage w /\
  now (snd (load_script_wrapped name w)) = now w.
Proof.
  unfold load_script_wrapped.
  destruct (is_script_name_safe name); [| now cbn].
  unfold bind, get, try_except. cbn [negb].
  destruct (storage w (path_of name)) as [src |]; [| now cbn].
  destruct (has_loader src); [| now cbn]. cbn.
  destruct (top_level src); now cbn.
Qed.

Lemma load_script_wrapped_ok_inv (name : str) (w w' : world) (m : module) :
  load_script_wrapped name w = (Ok m, w') ->
  exists src attrs,
    storage w (path_of name) = Some src /\ top_level src = Initialised attrs.
Proof.
  unfold load_script_wrapped.
  destruct (is_script_name_safe name); [| discriminate].
  unfold bind, get, try_except. cbn [negb].
  destruct (storage w (path_of name)) as [src |]; [| discriminate].
  destruct (has_loader src); [| discriminate]. cbn.
  destruct (top_level src) as [attrs |] eqn:Ht; [| discriminate].
  intros _. now exists src, attrs.
Qed.

Lemma cache_sound_fresh (w : world) : cache w = [] -> cache_sound w.
Proof. intros E name m H. rewrite E in H. discriminate. Qed.

(** Loading keeps the cache in agreement with the files. *)
Lemma load_script_cache_sound (name : str) (w : world) :
  cache_sound w -> cache_sound (snd (load_script name w)).
Proof.
  intros Hs. destruct (assoc name (cache w)) as [m |] eqn:Hc.
  - rewrite (load_script_hit _ _ Hc). cbn [snd].
    intros k m' H. cbn [cache storage set_cache] in *.
    apply assoc_lru_touch_inv in H.
    destruct H as [[-> ->] | H]; eapply Hs; eassumption.
  - rewrite (load_script_miss _ _ Hc).
    pose proof (load_script_wrapped_frame name w) as (Fc & Fs & _).
    destruct (load_script_wrapped name w) as [[m | e] w'] eqn:E;
      cbn [snd] in *.
    + apply load_script_wrapped_ok_inv in E.
      intros k m' H. cbn [cache storage set_cache] in *. rewrite Fs.
      apply assoc_lru_store_inv in H. destruct H as [[-> ->] | H].
      * exact E.
      * rewrite Fc in H. eapply Hs; eassumption.
    + intros k m' H. rewrite Fs. rewrite Fc in H. eapply Hs; eassumption.
Qed.

Lemma cache_sound_missing (name : str) (w : world) :
  cache_sound w -> storage w (path_of name) = None ->
  assoc name (cache w) = None.
Proof.
  intros Hs Hf. destruct (assoc name (cache w)) as [m |] eqn:Hc; [| reflexivity].
  apply Hs in Hc. destruct Hc as (src & attrs & H & _). congruence.
Qed.

Lemma cache_sound_raises (name : str) (w : world) (src : source_file) (e : exn) :
  cache_sound w -> storage w (path_of name) = Some src ->
  top_level src = InitRaises e ->
  assoc name (cache w) = None.
Proof.
  intros Hs Hf Ht. destruct (assoc name (cache w)) as [m |] eqn:Hc; [| reflexivity].
  apply Hs in Hc. destruct Hc as (src' & attrs & H & H'). congruence.
Qed.

(** C2. For a valid module name (a safe name whose source is there and
    initialises), two calls of [load_script] in a row both return the same
    module object; the second call runs no top-level code, so over the two
    calls the module's top-level code runs once if the first call made the
    cache entry, and not at all if the entry was already there. *)
Theorem load_script_twice (name : str) (w : world) (src : source_file)
        (attrs : list (str * attr)) :
  is_script_name_safe name = true ->
  storage w (path_of name) = Some src ->
  has_loader src = true ->
  top_level src = Initialised attrs ->
  exists m w1 w2,
    load_script name w = (Ok m, w1) /\
    load_script name w1 = (Ok m, w2) /\
    executed w2 = executed w1 /\
    init_count name w2 =
      (init_count name w +
       match assoc name (cache w) with None => 1 | Some _ => 0 end)%nat.
Proof.
  intros Hsafe Hfile Hld Htop.
  destruct (assoc name (cache w)) as [m |] eqn:Hc.
  - exists m. eexists. eexists.
    split; [apply (load_script_hit _ _ Hc) |].
    split; [apply load_script_hit; apply assoc_lru_touch |].
    split; [reflexivity |].
    unfold init_count. simpl. lia.
  - exists {| m_id := next_id w; m_name := name; m_attrs := attrs;
              m_getattr := module_getattr src |}.
    eexists. eexists.
    split.
    { rewrite (load_script_miss _ _ Hc).
      rewrite (load_script_wrapped_ok _ _ Hsafe Hfile Hld Htop). reflexivity. }
    split; [apply load_script_hit; apply assoc_lru_store |].
    split; [reflexivity |].
    change (init_count name (log_exec name (snd (alloc w)))
            = (init_count name w + 1)%nat).
    rewrite init_count_log_exec. unfold init_count. simpl. lia.
Qed.

(** Once a module is in the cache, any number of loads in a row return it
    and run nothing. *)
Lemma load_script_stays (name : str) (m : module) (n : nat) :
  forall w,
    assoc name (cache w) = Some m ->
    fst (load_script name (reload n name w)) = Ok m /\
    executed (reload n name w) = executed w.
Proof.
  induction n as [| n IH]; intros w Hc; simpl.
  - now rewrite (load_script_hit _ _ Hc).
  - rewrite (load_script_hit _ _ Hc). cbn [snd].
    destruct (IH (set_cache (lru_touch name m (cache w)) w)) as [H1 H2].
    + apply assoc_lru_touch.
    + now split.
Qed.

Lemma load_script_twice_witness :
  exists m w1 w2,
    load_script (lit "demo") Sample.boot = (Ok m, w1) /\
    load_script (lit "demo") w1 = (Ok m, w2) /\
    executed w2 = executed w1 /\
    init_count (lit "demo") w2 = 1%nat.
Proof.
  apply (@load_script_twice (lit "demo") Sample.boot Sample.demo_file
                            Sample.demo_attrs); reflexivity.
Defined.

(** A call that raises leaves the cache as it was, without an entry for the
    name. *)
Lemma load_script_raise_inv (name : str) (w w' : world) (err : exn) :
  load_script name w = (Raise err, w') ->
  assoc name (cache w) = None /\ cache w' = cache w.
Proof.
  intro H. destruct (assoc name (cache w)) as [m |] eqn:Hc.
  - rewrite (load_script_hit _ _ Hc) in H. discriminate.
  - split; [reflexivity |].
    rewrite (load_script_miss _ _ Hc) in H.
    pose proof (load_script_wrapped_frame name w) as (Fc & _).
    destruct (load_script_wrapped name w) as [[m | e] w1]; [discriminate |].
    injection H as _ <-. exact Fc.
Qed.

(** C9. In a process whose cache agrees with the files, [load_script] of a
    safe name raises 404 when there is no source file at the expected path,
    and 500 when loading the source raises.  Neither failure is stored: the
    cache is unchanged and has no entry for the name, a second call runs the
    failing source again, and once a good source is there the call loads
    it. *)
Theorem load_script_failure (name : str) (w : world) :
  cache_sound w ->
  is_script_name_safe name = true ->
  (storage w (path_of name) = None ->
   load_script name w =
   (Raise (HTTPException 404 (lit "Script '" ++ name ++ lit "' not found.")), w))
  /\
  (forall src e,
      storage w (path_of name) = Some src ->
      has_loader src = true ->
      top_level src = InitRaises e ->
      let failure :=
        HTTPException 500 (lit "Error loading script: " ++ str_of_exn e) in
      load_script name w = (Raise failure, after_exec name w) /\
      load_script name (after_exec name w) =
      (Raise failure, after_exec name (after_exec name w)))
  /\
  (forall err w',
      load_script name w = (Raise err, w') ->
      cache w' = cache w /\
      assoc name (cache w') = None /\
      forall st src attrs,
        st (path_of name) = Some src ->
        has_loader src = true ->
        top_level src = Initialised attrs ->
        exists m w'',
          load_script name (set_storage st w') = (Ok m, w'') /\
          m_attrs m = attrs /\
          init_count name w'' = S (init_count name w')).
Proof.
  intros Hs Hsafe. split; [| split].
  - intro Hf.
    rewrite (load_script_miss _ _ (cache_sound_missing _ Hs Hf)).
    now rewrite (load_script_wrapped_missing _ _ Hsafe Hf).
  - intros src e Hf Hld Ht failure.
    pose proof (cache_sound_raises _ Hs Hf Ht) as Hc.
    split.
    + rewrite (load_script_miss _ _ Hc).
      now rewrite (load_script_wrapped_raises _ _ Hsafe Hf Hld Ht).
    + rewrite load_script_miss by exact Hc.
      now rewrite (@load_script_wrapped_raises name (after_exec name w) src e).
  - intros err w' H. apply load_script_raise_inv in H. destruct H as [Hc Hw].
    split; [exact Hw |]. split; [now rewrite Hw |].
    intros st src attrs Hf Hld Ht.
    exists {| m_id := next_id w'; m_name := name; m_attrs := attrs;
              m_getattr := module_getattr src |}.
    eexists. split; [| split; [reflexivity |]].
    + rewrite load_script_miss by (cbn; now rewrite Hw).
      rewrite (@load_script_wrapped_ok name (set_storage st w') src attrs);
        try assumption. reflexivity.
    + now apply init_count_run.
Qed.

Lemma load_script_failure_witness :
  load_script (lit "absent") Sample.boot =
  (Raise (HTTPException 404 (lit "Script 'absent' not found.")), Sample.boot)
  /\
  fst (load_script (lit "broken") Sample.boot) =
  Raise (HTTPException 500 (lit "Error loading script: invalid syntax")).
Proof.
  split.
  - apply (@load_script_failure (lit "absent") Sample.boot);
      [now apply cache_sound_fresh | reflexivity | reflexivity].
  - destruct (@load_script_failure (lit "broken") Sample.boot
                (cache_sound_fresh Sample.boot eq_refl) eq_refl)
      as (_ & H & _).
    destruct (H Sample.broken_file _ eq_refl eq_refl eq_refl) as [H1 _].
    now rewrite H1.
Defined.

End LoaderFacts.

(** ** [main.py]: the dispatch engine *)

Module DispatchFacts.
Import Py Eff Re Main Spec PyFacts.

Lemma in_time_iff (d : Q) (timeout : Z) :
  in_time d timeout = true <-> (0 < timeout)%Z /\ (d < inject_Z timeout)%Q.
Proof.
  unfold in_time. rewrite andb_true_iff, Z.ltb_lt, negb_true_iff.
  split; intros [H0 H]; (split; [exact H0 |]).
  - apply Qnot_le_lt. intro L. apply Qle_bool_iff in L. congruence.
  - destruct (Qle_bool (inject_Z timeout) d) eqn:E; [| reflexivity].
    apply Qle_bool_iff in E. now apply Qlt_not_le in H.
Qed.

Lemma in_time_at_once (timeout : Z) : (0 < timeout)%Z -> in_time 0 timeout = true.
Proof.
  intro H. apply in_time_iff. split; [exact H |]. unfold Qlt. simpl. lia.
Qed.

Lemma wait_for_in_time (d : Q) (o : result val) (timeout : Z) (w : world) :
  in_time d timeout = true ->
  wait_for (Completes d o) timeout w = (o, advance d w).
Proof.
  intro H. unfold wait_for. now rewrite H.
Qed.


(** *** Binding *)

Lemma mem_In (k : str) (l : list str) : mem k l = true <-> In k l.
Proof.
  unfold mem. rewrite existsb_exists. split.
  - intros (x & Hx & E). apply str_eqb_eq in E. now subst.
  - intro H. exists k. split; [assumption | apply str_eqb_refl].
Qed.

Lemma is_positional_only_false (p : param) :
  is_positional_only p = false <-> p_kind p <> PositionalOnly.
Proof.
  unfold is_positional_only. destruct (p_kind p); split; congruence.
Qed.

Lemma accepts_iff (sg : signature) (k : str) :
  accepts sg k = true <-> key_accepted sg k.
Proof.
  unfold accepts, key_accepted, accepted_names.
  rewrite orb_true_iff, mem_In, in_map_iff.
  split; (intros [H | H]; [now left | right]).
  - destruct H as (p & E & Hp). apply filter_In in Hp. destruct Hp as [Hin Hk].
    exists p. rewrite negb_true_iff in Hk.
    now rewrite is_positional_only_false in Hk.
  - destruct H as (p & Hin & E & Hk). exists p. split; [assumption |].
    apply filter_In. split; [assumption |].
    now rewrite negb_true_iff, is_positional_only_false.
Qed.

Lemma unfilled_iff (params : list (str * val)) (p : param) :
  match p_default p with Some _ => false | None => negb (supplied params p) end
  = false <-> param_filled params p.
Proof.
  unfold param_filled, supplied.
  destruct (p_default p) as [v |].
  - split; [intros _; left; discriminate | reflexivity].
  - rewrite negb_false_iff, andb_true_iff, negb_true_iff,
      is_positional_only_false, mem_In.
    split; [now right | intros [H | H]; [congruence | assumption]].
Qed.

Lemma filter_nil_iff {A : Type} (f : A -> bool) (l : list A) :
  filter f l = [] <-> forall x, In x l -> f x = false.
Proof.
  induction l as [| a l IH]; simpl.
  - split; [intros _ x [] | reflexivity].
  - destruct (f a) eqn:E.
    + split; [discriminate |]. intro H. specialize (H a (or_introl eq_refl)).
      congruence.
    + rewrite IH. split.
      * intros H x [<- | Hx]; [assumption | now apply H].
      * intros H x Hx. apply H. now right.
Qed.

(** Binding raises exactly when the mapping does not fit the signature. *)
Lemma mismatch_none_iff (fname : str) (sg : signature) (params : list (str * val)) :
  mismatch fname sg params = None <-> keys_match sg params.
Proof.
  unfold mismatch, keys_match.
  assert (U : unexpected sg params = [] <->
              forall k, In k (map fst params) -> key_accepted sg k).
  { unfold unexpected. rewrite filter_nil_iff.
    split; intros H k Hk; specialize (H k Hk).
    - rewrite negb_false_iff in H. now apply accepts_iff.
    - rewrite negb_false_iff. now apply accepts_iff. }
  assert (V : missing sg params = [] <->
              forall p, In p (sig_params sg) -> param_filled params p).
  { unfold missing. rewrite filter_nil_iff.
    split; intros H p Hp; specialize (H p Hp); now apply unfilled_iff. }
  destruct (unexpected sg params) as [| k ks] eqn:EU.
  - destruct (missing sg params) as [| p ps] eqn:EM.
    + simpl. split; [intros _; split; [now apply U | now apply V] | reflexivity].
    + assert (N : ~ keys_match sg params).
      { intros [_ H]. apply V in H. discriminate. }
      split; [| intro H; now apply N in H].
      simpl. destruct (is_keyword_only p); simpl;
        destruct (filter (fun p0 => negb (is_keyword_only p0)) ps);
        discriminate.
  - split.
    + destruct (positional_only_given sg params); discriminate.
    + intros [H _]. apply U in H. discriminate.
Qed.

(** *** The worker threads *)

Lemma queue_wait_ext (w w' : world) :
  now w' = now w -> running w' = running w -> max_workers w' = max_workers w ->
  queue_wait w' = queue_wait w.
Proof.
  intros Hn Hr Hm. unfold queue_wait, worker_free, held, releases.
  now rewrite Hn, Hr, Hm.
Qed.

(** Loading a module leaves the pool as it is. *)
Lemma queue_wait_loaded (name : str) (w : world) :
  queue_wait (snd (load_script name w)) = queue_wait w.
Proof.
  destruct (LoaderFacts.load_script_workers name w) as [Hm Hr].
  apply queue_wait_ext; [apply LoaderFacts.load_script_now | exact Hr | exact Hm].
Qed.

Lemma to_thread_loaded (name : str) (w : world) (method : attr)
      (params : list (str * val)) :
  to_thread (snd (load_script name w)) method params = to_thread w method params.
Proof. unfold to_thread. now rewrite queue_wait_loaded. Qed.

Lemma earliest_In (ok : Q -> bool) (ts : list Q) (u : Q) :
  earliest ok ts = Some u -> In u ts.
Proof.
  revert u. induction ts as [| t rest IH]; simpl; intros u H; [discriminate |].
  destruct (earliest ok rest) as [u' |].
  - destruct (ok t && Qle_bool t u')%bool; injection H as <-;
      [now left | right; now apply IH].
  - destruct (ok t); [| discriminate]. injection H as <-. now left.
Qed.

Lemma releases_later (w : world) (u : Q) : In u (releases w) -> (now w < u)%Q.
Proof.
  unfold releases. rewrite in_flat_map. intros ([f |] & _ & H); [| destruct H].
  destruct (still_running (now w) (Some f)) eqn:E; [| destruct H].
  destruct H as [<- | []]. simpl in E. rewrite negb_true_iff in E.
  apply Qnot_le_lt. intro L. apply Qle_bool_iff in L. congruence.
Qed.

(** A call never starts before it is submitted. *)
Lemma queue_wait_nonneg (w : world) (q : Q) :
  queue_wait w = Some q -> (0 <= q)%Q.
Proof.
  unfold queue_wait. destruct (worker_free w (now w)).
  - intro H. injection H as <-. apply Qle_refl.
  - destruct (earliest (worker_free w) (releases w)) as [u |] eqn:E;
      [| discriminate].
    intro H. injection H as <-.
    apply earliest_In, releases_later in E.
    apply Qlt_le_weak. unfold Qminus. now rewrite <- Qlt_minus_iff.
Qed.

(** A call that outlasts the timeout once a worker has it outlasts it all
    the more with the wait for a worker. *)
Lemma to_thread_exceeds (w : world) (method : attr) (params : list (str * val))
      (timeout : Z) :
  exceeds (call method params) timeout ->
  exceeds (to_thread w method params) timeout.
Proof.
  unfold to_thread.
  destruct (queue_wait w) as [q |] eqn:Eq;
    [| destruct (call method params); intros _; exact I].
  destruct (call method params) as [d o |]; [| intros _; exact I].
  simpl. intro H. apply queue_wait_nonneg in Eq.
  apply Qlt_le_trans with (y := d); [exact H |].
  rewrite <- (Qplus_0_l d) at 1. apply Qplus_le_l. exact Eq.
Qed.

Lemma wait_for_thread_eq (method : attr) (params : list (str * val))
      (timeout : Z) (w : world) :
  wait_for_thread method params timeout w =
  wait_for (to_thread w method params) timeout
           (set_running (left_running w method params timeout ++ running w) w).
Proof. reflexivity. Qed.

(** *** Building the response *)






(** *** The engine *)

Section Engine.

Variable repr : val -> str.

(** Once the module is loaded, the engine looks the method up and runs the
    guarded call.  A lookup that raises anything but [AttributeError] ends
    the dispatch with that exception. *)
Lemma run_script_async_loaded
      (script_name method_name : str) (params : list (str * val)) (timeout : Z)
      (w w1 : world) (m : module) :
  load_script script_name w = (Ok m, w1) ->
  run_script_async repr script_name method_name params timeout w =
  match getattr m method_name with
  | Raise (AttributeError _) =>
      (Raise (HTTPException 404 (method_not_found method_name script_name)), w1)
  | Raise e => (Raise e, w1)
  | Ok method =>
      match
        match wait_for_thread method params timeout w1 with
        | (Ok result, w2) => classify repr result w2
        | (Raise e, w2) => (Raise e, w2)
        end
      with
      | (Ok r, w3) => (Ok r, w3)
      | (Raise (TimeoutError _), w3) =>
          (Raise (HTTPException 408 (lit "Script execution timed out.")), w3)
      | (Raise (TypeError msg), w3) =>
          (Raise (HTTPException 400
                    (lit "Error calling method '" ++ method_name ++ lit "': " ++ msg)),
           w3)
      | (Raise e, w3) =>
          (Raise (HTTPException 500
                    (lit "Error executing method '" ++ method_name ++ lit "': "
                     ++ str_of_exn e)),
           w3)
      end
  end.
Proof.
  intro H. unfold run_script_async. unfold bind at 1. rewrite H.
  unfold hasattr.
  destruct (getattr m method_name) as [method | e].
  - unfold bind at 1. unfold lift. cbn [negb]. unfold bind at 1.
    unfold try_except, bind.
    destruct (wait_for_thread method params timeout w1) as [[v | e] w2].
    + destruct (classify repr v w2) as [[r | e] w3]; [reflexivity |].
      destruct e; reflexivity.
    + destruct e; reflexivity.
  - destruct e; reflexivity.
Qed.

Lemma run_script_async_not_loaded
      (script_name method_name : str) (params : list (str * val)) (timeout : Z)
      (w w1 : world) (e : exn) :
  load_script script_name w = (Raise e, w1) ->
  run_script_async repr script_name method_name params timeout w = (Raise e, w1).
Proof.
  intro H. unfold run_script_async. unfold bind at 1. now rewrite H.
Qed.

(** The same with the pool and the wait spelled out: the wait starts in a
    state [w2] that differs from the state after the load only in the calls
    the pool runs. *)
Lemma run_script_async_called
      (script_name method_name : str) (params : list (str * val)) (timeout : Z)
      (w w1 : world) (m : module) (method : attr) :
  load_script script_name w = (Ok m, w1) ->
  getattr m method_name = Ok method ->
  exists w2,
    (now w2 = now w /\ cache w2 = cache w1 /\ executed w2 = executed w1 /\
     storage w2 = storage w1) /\
    run_script_async repr script_name method_name params timeout w =
    match
      match wait_for (to_thread w method params) timeout w2 with
      | (Ok result, w3) => classify repr result w3
      | (Raise e, w3) => (Raise e, w3)
      end
    with
    | (Ok r, w3) => (Ok r, w3)
    | (Raise (TimeoutError _), w3) =>
        (Raise (HTTPException 408 (lit "Script execution timed out.")), w3)
    | (Raise (TypeError msg), w3) =>
        (Raise (HTTPException 400
                  (lit "Error calling method '" ++ method_name ++ lit "': " ++ msg)),
         w3)
    | (Raise e, w3) =>
        (Raise (HTTPException 500
                  (lit "Error executing method '" ++ method_name ++ lit "': "
                   ++ str_of_exn e)),
         w3)
    end.
Proof.
  intros Hload Hattr.
  exists (set_running (left_running w1 method params timeout ++ running w1) w1).
  split.
  - pose proof (LoaderFacts.load_script_now script_name w) as Hnow.
    rewrite Hload in Hnow. cbn [snd] in Hnow. cbn. now rewrite Hnow.
  - erewrite run_script_async_loaded by eassumption. rewrite Hattr.
    rewrite wait_for_thread_eq.
    pose proof (to_thread_loaded script_name w method params) as Ht.
    rewrite Hload in Ht. cbn [snd] in Ht. now rewrite Ht.
Qed.

Lemma classify_world (result : val) (w : world) :
  snd (classify repr result w) = w.
Proof.
  unfold classify. destruct result; try reflexivity.
  destruct (dict_contains _ _); [| reflexivity].
  destruct (dict_get _ _ _); try reflexivity.
  unfold bind, lift. destruct (Response _ _ _); reflexivity.
Qed.





Lemma cache_sound_ext (w w' : world) :
  cache w' = cache w -> storage w' = storage w ->
  cache_sound w -> cache_sound w'.
Proof.
  intros Fc Fs Hs k m H. rewrite Fs. rewrite Fc in H. eapply Hs; eassumption.
Qed.

Lemma wait_for_frame (aw : invocation) (timeout : Z) (w : world) :
  cache (snd (wait_for aw timeout w)) = cache w /\
  storage (snd (wait_for aw timeout w)) = storage w /\
  executed (snd (wait_for aw timeout w)) = executed w.
Proof.
  unfold wait_for, expire, bind, modify, raise, lift.
  destruct aw as [d o |]; [| now cbn].
  destruct (in_time d timeout); now cbn.
Qed.

(** The awaited call changes the clock and the pool, and nothing else. *)
Lemma wait_for_thread_frame (method : attr) (params : list (str * val))
      (timeout : Z) (w : world) :
  cache (snd (wait_for_thread method params timeout w)) = cache w /\
  storage (snd (wait_for_thread method params timeout w)) = storage w /\
  executed (snd (wait_for_thread method params timeout w)) = executed w.
Proof.
  rewrite wait_for_thread_eq.
  destruct (wait_for_frame (to_thread w method params) timeout
              (set_running (left_running w method params timeout ++ running w) w))
    as (Hc & Hs & He).
  now rewrite Hc, Hs, He.
Qed.

(** After the load, a dispatch changes nothing but the clock and the
    pool. *)
Lemma run_script_async_frame
      (script_name method_name : str) (params : list (str * val)) (timeout : Z)
      (w : world) :
  executed (snd (run_script_async repr script_name method_name params timeout w))
  = executed (snd (load_script script_name w)) /\
  cache (snd (run_script_async repr script_name method_name params timeout w))
  = cache (snd (load_script script_name w)) /\
  storage (snd (run_script_async repr script_name method_name params timeout w))
  = storage (snd (load_script script_name w)).
Proof.
  destruct (load_script script_name w) as [[m | e] w1] eqn:El.
  - erewrite run_script_async_loaded by eassumption. cbn [snd].
    destruct (getattr m method_name) as [method | e];
      [| destruct e; now repeat split].
    destruct (wait_for_thread_frame method params timeout w1) as (Fc & Fs & Fe).
    destruct (wait_for_thread method params timeout w1) as [[v | e] w2];
      cbn [snd] in Fc, Fs, Fe.
    + pose proof (classify_world v w2) as Hw.
      destruct (classify repr v w2) as [[r | e] w3]; cbn [snd] in Hw; subst w3;
        [now repeat split | destruct e; now repeat split].
    + destruct e; now repeat split.
  - erewrite run_script_async_not_loaded by eassumption. now repeat split.
Qed.

(** A dispatch keeps the cache in agreement with the files, so the
    agreement holds in every state the engine reaches from a fresh process
    while the files stay. *)
Lemma run_script_async_cache_sound
      (script_name method_name : str) (params : list (str * val)) (timeout : Z)
      (w : world) :
  cache_sound w ->
  cache_sound
    (snd (run_script_async repr script_name method_name params timeout w)).
Proof.
  intro Hs.
  pose proof (LoaderFacts.load_script_cache_sound script_name Hs) as Hs1.
  destruct (run_script_async_frame script_name method_name params timeout w)
    as (_ & Fc & Fs).
  eapply cache_sound_ext; eassumption.
Qed.






(** C10. When the arguments bind and the body of the handler itself raises
    [TypeError], the engine never answers with status 500: the answer is
    400, as for a parameter mismatch, or 408.  It is 400 whenever the body
    raises before the (positive) timeout; the body runs on the worker
    thread that takes the call, after the wait [q] for one, which is zero
    while a worker is free. *)
Theorem dispatch_type_error_in_body
        (script_name method_name : str) (params : list (str * val)) (timeout : Z)
        (w w1 : world) (m : module) (f : function) (d : Q) (msg : str) :
  load_script script_name w = (Ok m, w1) ->
  getattr m method_name = Ok (Func f) ->
  keys_match (f_sig f) params ->
  f_body f (bound_args (f_sig f) params) = Completes d (Raise (TypeError msg)) ->
  let answer :=
    fst (run_script_async repr script_name method_name params timeout w) in
  let bad_request :=
    Raise (HTTPException 400
             (lit "Error calling method '" ++ method_name ++ lit "': " ++ msg)) in
  (forall q,
      queue_wait w = Some q -> (0 < timeout)%Z -> (q + d < inject_Z timeout)%Q ->
      answer = bad_request) /\
  (answer = bad_request \/
   answer = Raise (HTTPException 408 (lit "Script execution timed out."))).
Proof.
  intros Hload Hattr Hfit Hbody answer bad_request. subst answer bad_request.
  destruct (@run_script_async_called script_name method_name params timeout
              w w1 m _ Hload Hattr)
    as (w2 & _ & ->).
  unfold to_thread, call.
  apply (mismatch_none_iff (f_name f)) in Hfit. rewrite Hfit, Hbody.
  split.
  - intros q Hq Ht Hd. rewrite Hq.
    now rewrite wait_for_in_time by now apply in_time_iff.
  - destruct (queue_wait w) as [q |]; [| now right].
    unfold wait_for. destruct (in_time (q + d) timeout); [now left | now right].
Qed.

End Engine.








Lemma dispatch_type_error_in_body_witness :
  fst (run_script_async Sample.show (lit "demo") (lit "add") [] 5 Sample.boot) =
  Raise (HTTPException 400
           (lit "Error calling method 'add': unsupported operand type(s) for +: 'int' and 'str'")).
Proof.
  refine (proj1 (@dispatch_type_error_in_body Sample.show (lit "demo") (lit "add")
                   [] 5 Sample.boot _ _ Sample.add (1 # 100) _
                   eq_refl eq_refl _ eq_refl)
                0%Q eq_refl eq_refl eq_refl).
  apply (mismatch_none_iff (lit "add")). reflexivity.
Defined.

End DispatchFacts.

(** ** [scripts/ssh.py]: the remote command executor *)

Module SshFacts.
Import Py Eff Ssh SshSpec PyFacts.
Local Open Scope py_scope.

(** *** Steps that keep a property of the [result] dict *)

Section Keeps.

Variable P : result -> Prop.

Lemma keeps_ret {A} (a : A) : keeps P (ret a : T A).
Proof. intros s H. exact H. Qed.

Lemma keeps_raise {A} (e : exc) : keeps P (raise e : T A).
Proof. intros s H. exact H. Qed.

Lemma keeps_lift {A} (r : io A) : keeps P (lift r : T A).
Proof. intros s H. exact H. Qed.

Lemma keeps_emit (ev : event) : keeps P (emit ev).
Proof. intros s H. exact H. Qed.

Lemma keeps_read_timer (env : remote) : keeps P (read_timer env).
Proof. intros s H. exact H. Qed.

Lemma keeps_assign (f : result -> result) :
  (forall r, P r -> P (f r)) -> keeps P (assign f).
Proof.
  intros Hf s (r & Hr & HP). exists (f r). simpl. rewrite Hr. split; auto.
Qed.

Lemma keeps_bind {A B} (m : T A) (k : A -> T B) :
  keeps P m -> (forall a, keeps P (k a)) -> keeps P (bind m k).
Proof.
  intros Hm Hk s H. unfold bind. specialize (Hm s H).
  destruct (m s) as [[a | e] s']; simpl in *; [now apply Hk | assumption].
Qed.

Lemma keeps_with_exit {A} (closing : event) (fault : option exc) (body : T A) :
  keeps P body -> keeps P (with_exit closing fault body).
Proof.
  intros Hb s H. unfold with_exit. specialize (Hb s H).
  destruct (body s) as [r s1]. destruct fault; exact Hb.
Qed.

Lemma keeps_try_except_finally {A} (m : T A) (h : exc -> T A) (f : T unit) :
  keeps P m -> (forall e, keeps P (h e)) -> keeps P f ->
  keeps P (try_except_finally m h f).
Proof.
  intros Hm Hh Hf s H. unfold try_except_finally, try_except.
  specialize (Hm s H).
  destruct (m s) as [[a | e] s'].
  - specialize (Hf s' Hm). destruct (f s') as [[u | e] s2]; exact Hf.
  - specialize (Hh e s' Hm). destruct (h e s') as [r s1].
    specialize (Hf s1 Hh). destruct (f s1) as [[u | e'] s2]; exact Hf.
Qed.

Lemma keeps_read_stream (ready : option (io bytes)) (buf : bytes) :
  keeps P (read_stream ready buf).
Proof.
  destruct ready as [r |]; simpl.
  - apply keeps_bind; [apply keeps_lift | intro; apply keeps_ret].
  - apply keeps_ret.
Qed.

Lemma keeps_wait_loop (ps : list poll) :
  forall out err, keeps P (wait_loop ps out err).
Proof.
  induction ps as [| p ps IH]; intros out err; simpl.
  - apply keeps_ret.
  - apply keeps_bind; [apply keeps_read_stream | intro out'].
    apply keeps_bind; [apply keeps_read_stream | intro err'].
    apply IH.
Qed.

End Keeps.

Create HintDb keeps.

#[local] Hint Resolve keeps_ret keeps_raise keeps_lift keeps_emit
  keeps_read_timer keeps_wait_loop keeps_read_stream : keeps.

(** *** [status] and [exit_code] agree at every point *)


Lemma consistent_set_stdout (v : val) (r : result) :
  consistent r -> consistent (set_stdout v r).
Proof. trivial. Qed.

Lemma consistent_set_error (m : str) (r : result) :
  consistent r -> consistent (set_error m r).
Proof. trivial. Qed.

Lemma consistent_set_execution_time (t : Q) (r : result) :
  consistent r -> consistent (set_execution_time t r).
Proof. trivial. Qed.


(** *** The wait loop *)

Lemma read_stream_readable (ready : option (io bytes)) (buf : bytes) (s : state) :
  readable ready -> read_stream ready buf s = (Ok (buf ++ chunk ready), s).
Proof.
  intro H. destruct ready as [[b | e] |]; simpl.
  - reflexivity.
  - now destruct (H e).
  - now rewrite app_nil_r.
Qed.

Lemma read_stream_fault (ready : option (io bytes)) (buf : bytes) (s : state) :
  ~ readable ready -> exists e, read_stream ready buf s = (Raise e, s).
Proof.
  intro H. destruct ready as [[b | e] |].
  - exfalso. apply H. intros e E. discriminate.
  - now exists e.
  - exfalso. apply H. intros e E. discriminate.
Qed.

Lemma readable_dec (ready : option (io bytes)) : readable ready \/ ~ readable ready.
Proof.
  destruct ready as [[b | e] |].
  - left. intros e E. discriminate.
  - right. intro H. now apply (H e).
  - left. intros e E. discriminate.
Qed.

Section Executor.

Variable env : remote.

Section KeepsBody.

Variable P : result -> Prop.
Hypothesis P_set_stdout : forall v r, P r -> P (set_stdout v r).
Hypothesis P_update :
  forall code err r,
    P r -> P (update (if Z.eqb code 0 then lit "success" else lit "error") code err r).

Lemma keeps_run_channel (ch : channel) (command parse_json : val) :
  keeps P (run_channel env ch command parse_json).
Proof.
  unfold run_channel.
  apply keeps_bind; [auto with keeps | intros _].
  apply keeps_bind; [destruct (exec_command ch); auto with keeps | intros _].
  apply keeps_bind; [auto with keeps | intros bufs].
  apply keeps_bind; [auto with keeps | intros last_out].
  apply keeps_bind; [auto with keeps | intros last_err].
  apply keeps_bind; [auto with keeps | intros decoded_out].
  apply keeps_bind; [auto with keeps | intros decoded_err].
  apply keeps_bind.
  - destruct (truthy parse_json && nonempty (strip decoded_out))%bool.
    + destruct (json_loads env (strip decoded_out)); auto with keeps;
        apply keeps_assign; intros r; apply P_set_stdout.
    + apply keeps_assign; intros r; apply P_set_stdout.
  - intros _. apply keeps_assign. intros r. apply P_update.
Qed.

Lemma keeps_client_body
      (host command username password port timeout key_filename policy
       parse_json : val) :
  keeps P (client_body env host command username password port timeout
                       key_filename policy parse_json).
Proof.
  unfold client_body.
  apply keeps_bind; [destruct (policy_table policy); auto with keeps | intros p].
  apply keeps_bind; [auto with keeps | intros _].
  apply keeps_bind; [destruct (connect env p _); auto with keeps | intros _].
  apply keeps_bind; [auto with keeps | intros _].
  apply keeps_bind; [auto with keeps | intros ch].
  apply keeps_with_exit, keeps_run_channel.
Qed.

End KeepsBody.

(** *** A step that raises has not written to the [result] dict *)

Lemma silent_atomic {A} (m : T A) : silent m -> atomic m.
Proof. intros H s e s' E. specialize (H s). now rewrite E in H. Qed.

Lemma silent_ret {A} (a : A) : silent (ret a : T A).
Proof. intro s. reflexivity. Qed.

Lemma silent_raise {A} (e : exc) : silent (raise e : T A).
Proof. intro s. reflexivity. Qed.

Lemma silent_lift {A} (r : io A) : silent (lift r : T A).
Proof. intro s. reflexivity. Qed.

Lemma silent_emit (ev : event) : silent (emit ev).
Proof. intro s. reflexivity. Qed.

Lemma silent_bind {A B} (m : T A) (k : A -> T B) :
  silent m -> (forall a, silent (k a)) -> silent (bind m k).
Proof.
  intros Hm Hk s. unfold bind. specialize (Hm s).
  destruct (m s) as [[a | e] s']; simpl in *; [| assumption].
  now rewrite Hk.
Qed.

Lemma silent_read_stream (ready : option (io bytes)) (buf : bytes) :
  silent (read_stream ready buf).
Proof.
  destruct ready as [r |]; simpl; [| apply silent_ret].
  apply silent_bind; [apply silent_lift | intro; apply silent_ret].
Qed.

Lemma silent_wait_loop (ps : list poll) :
  forall out err, silent (wait_loop ps out err).
Proof.
  induction ps as [| p ps IH]; intros out err; simpl; [apply silent_ret |].
  apply silent_bind; [apply silent_read_stream | intro out'].
  apply silent_bind; [apply silent_read_stream | intro err'].
  apply IH.
Qed.

Lemma total_assign (f : result -> result) : total (assign f).
Proof. intro s. now eexists; eexists. Qed.

(** After a silent step, a fault of the rest is a fault of the whole. *)
Lemma atomic_bind_silent {A B} (m : T A) (k : A -> T B) :
  silent m -> (forall a, atomic (k a)) -> atomic (bind m k).
Proof.
  intros Hm Hk s e s' E. unfold bind in E. specialize (Hm s).
  destruct (m s) as [[a | e0] s0]; simpl in *.
  - rewrite <- Hm. now apply (Hk a s0 e).
  - injection E as _ <-. assumption.
Qed.

(** Before a step that never raises, only the first part can fault. *)
Lemma atomic_bind_total {A B} (m : T A) (k : A -> T B) :
  atomic m -> (forall a, total (k a)) -> atomic (bind m k).
Proof.
  intros Hm Hk s e s' E. unfold bind in E.
  destruct (m s) as [[a | e0] s0] eqn:Em.
  - destruct (Hk a s0) as (b & s1 & Ek). rewrite Ek in E. discriminate.
  - injection E as _ <-. now apply (Hm s e0).
Qed.

Lemma atomic_assign (f : result -> result) : atomic (assign f).
Proof. intros s e s' E. discriminate. Qed.

Lemma atomic_with_exit {A} (closing : event) (body : T A) :
  atomic body -> atomic (with_exit closing None body).
Proof.
  intros Hb s e s' E. unfold with_exit in E.
  destruct (body s) as [r s1] eqn:Eb. injection E as -> <-.
  simpl. now apply (Hb s e).
Qed.

Lemma atomic_run_channel (ch : channel) (command parse_json : val) :
  atomic (run_channel env ch command parse_json).
Proof.
  unfold run_channel.
  apply atomic_bind_silent; [apply silent_emit | intros _].
  apply atomic_bind_silent;
    [destruct (exec_command ch); [apply silent_raise | apply silent_ret] | intros _].
  apply atomic_bind_silent; [apply silent_wait_loop | intros bufs].
  apply atomic_bind_silent; [apply silent_lift | intros last_out].
  apply atomic_bind_silent; [apply silent_lift | intros last_err].
  apply atomic_bind_silent; [apply silent_lift | intros decoded_out].
  apply atomic_bind_silent; [apply silent_lift | intros decoded_err].
  apply atomic_bind_total; [| intros _; apply total_assign].
  destruct (truthy parse_json && nonempty (strip decoded_out))%bool.
  - destruct (json_loads env (strip decoded_out)).
    + apply atomic_assign.
    + apply atomic_assign.
    + apply silent_atomic, silent_raise.
  - apply atomic_assign.
Qed.

Lemma atomic_client_body
      (host command username password port timeout key_filename policy
       parse_json : val) :
  (forall ch, open_session env = Ok ch -> channel_exit ch = None) ->
  atomic (client_body env host command username password port timeout
                      key_filename policy parse_json).
Proof.
  intro Hq. unfold client_body.
  apply atomic_bind_silent;
    [destruct (policy_table policy); [apply silent_ret | apply silent_raise]
    | intros p].
  apply atomic_bind_silent; [apply silent_emit | intros _].
  apply atomic_bind_silent;
    [destruct (connect env p _); [apply silent_raise | apply silent_ret]
    | intros _].
  apply atomic_bind_silent; [apply silent_emit | intros _].
  destruct (open_session env) as [ch | e] eqn:Eo.
  - intros s e s' E. unfold bind, lift in E.
    rewrite (Hq ch eq_refl) in E.
    eapply (@atomic_with_exit _ CloseChannel _
              (atomic_run_channel ch command parse_json)); exact E.
  - intros s e0 s' E. unfold bind, lift in E. now injection E as _ <-.
Qed.


(** *** The handlers and the end of the call *)

Lemma handle_sets_error (e : exc) (s : state) :
  handle e s =
  (Ok tt, {| res := option_map (set_error (error_text e)) (res s);
               trace := trace s |}).
Proof. unfold handle, error_text. destruct (e_class e); reflexivity. Qed.



(** *** Validation *)

Lemma is_str_iff (v : val) (t : string) : is_str v t = true <-> v = VStr (lit t).
Proof.
  destruct v; simpl; try (split; discriminate).
  rewrite str_eqb_eq. split; congruence.
Qed.

Lemma policy_known_false_iff (policy : val) :
  policy_known policy = false <-> policy_unknown policy.
Proof.
  unfold policy_known, policy_unknown.
  rewrite !orb_false_iff, <- !not_true_iff_false, !is_str_iff. tauto.
Qed.

Lemma policy_table_known (policy : val) (p : host_policy) :
  policy_table policy = Some p -> policy_known policy = true.
Proof.
  unfold policy_table, policy_known.
  destruct (is_str policy "auto"), (is_str policy "warning"),
    (is_str policy "strict"); (discriminate || reflexivity).
Qed.

Lemma missing_required_spec (host username command : val) (name : str) :
  In name (missing_required host username command) <->
  (name = lit "host" /\ truthy host = false) \/
  (name = lit "username" /\ truthy username = false) \/
  (name = lit "command" /\ truthy command = false).
Proof.
  unfold missing_required. rewrite !in_app_iff.
  destruct (truthy host), (truthy username), (truthy command); simpl;
    intuition (try discriminate; auto).
Qed.

(** With the arguments checked, the call is the timed, guarded block. *)
Lemma execute_command_checked
      (host command username password port timeout key_filename policy
       parse_json buffer_size : val) :
  missing_required host username command = [] ->
  policy_known policy = true ->
  execute_command env host command username password port timeout key_filename
                  policy parse_json buffer_size start =
  (try_except_finally
     (with_exit CloseClient (client_exit env)
        (client_body env host command username password port timeout
                     key_filename policy parse_json))
     handle
     (t <- read_timer env ;;
      assign (set_execution_time
                (float_round env (float_sub env t (perf_counter env 0))))) ;;;
   get_result)
    {| res := Some (initial_result host); trace := [Timer] |}.
Proof.
  intros Hm Hk. unfold execute_command. rewrite Hm, Hk. reflexivity.
Qed.

(** A call returns a record only if the arguments passed the checks. *)
Lemma execute_command_done_inv
      (host command username password port timeout key_filename policy
       parse_json buffer_size : val) (r : result) (s : state) :
  execute_command env host command username password port timeout key_filename
                  policy parse_json buffer_size start = (Ok r, s) ->
  missing_required host username command = [] /\
  exists p, policy_table policy = Some p.
Proof.
  unfold execute_command.
  destruct (missing_required host username command); [| discriminate].
  destruct (policy_known policy) eqn:Hk; [| discriminate].
  intros _. split; [reflexivity |].
  unfold policy_known in Hk. unfold policy_table.
  destruct (is_str policy "auto"); [now eexists |].
  destruct (is_str policy "warning"); [now eexists |].
  destruct (is_str policy "strict"); [now eexists | discriminate].
Qed.

(** *** The wait loop and the channel *)

Lemma wait_loop_clean (ps : list poll) :
  clean ps ->
  forall out err s,
    wait_loop ps out err s
    = (Ok (out ++ out_chunks ps, err ++ err_chunks ps), s).
Proof.
  induction 1 as [| p ps [Ho He] _ IH]; intros out err s; simpl.
  - now rewrite !app_nil_r.
  - unfold bind. rewrite (read_stream_readable _ _ Ho).
    rewrite (read_stream_readable _ _ He). rewrite IH.
    unfold out_chunks, err_chunks. simpl. now rewrite !app_assoc.
Qed.

Lemma wait_loop_fault (ps : list poll) :
  ~ clean ps ->
  forall out err s, exists e, wait_loop ps out err s = (Raise e, s).
Proof.
  induction ps as [| p ps IH]; intros Hbad out err s.
  - exfalso. apply Hbad. constructor.
  - simpl. unfold bind.
    destruct (readable_dec (recv_ready p)) as [Ho | Ho].
    + rewrite (read_stream_readable _ _ Ho).
      destruct (readable_dec (recv_stderr_ready p)) as [He | He].
      * rewrite (read_stream_readable _ _ He). apply IH.
        intro Hc. apply Hbad. constructor; [now split | exact Hc].
      * destruct (read_stream_fault err s He) as [e ->]. now exists e.
    + destruct (read_stream_fault out s Ho) as [e ->]. now exists e.
Qed.

Lemma run_channel_completes
      (ch : channel) (command parse_json : val) (a b : bytes) (out err : str)
      (v : val) (s : state) :
  exec_command ch = None ->
  clean (polls ch) ->
  recv ch = Ok a ->
  recv_stderr ch = Ok b ->
  decode env (out_chunks (polls ch) ++ a) = Ok out ->
  decode env (err_chunks (polls ch) ++ b) = Ok err ->
  stdout_value env parse_json (strip out) = Ok v ->
  run_channel env ch command parse_json s =
  (Ok tt,
   {| res := option_map
               (fun r =>
                  update (if Z.eqb (recv_exit_status ch) 0
                          then lit "success" else lit "error")
                         (recv_exit_status ch) (strip err) (set_stdout v r))
               (res s);
      trace := trace s ++ [ExecCommand command] |}).
Proof.
  intros Hx Hc Ha Hb Ho He Hv.
  unfold run_channel, bind, emit, modify, lift, ret. rewrite Hx.
  rewrite (wait_loop_clean Hc). rewrite Ha, Hb. cbn [fst snd app].
  rewrite Ho, He. unfold stdout_value in Hv.
  destruct (truthy parse_json && nonempty (strip out))%bool.
  - destruct (json_loads env (strip out)) as [v' | | e]; [| | discriminate];
      injection Hv as <-; unfold assign, modify; cbn;
      now destruct (res s).
  - injection Hv as <-. unfold assign, modify. cbn. now destruct (res s).
Qed.

Lemma run_channel_parse_fault
      (ch : channel) (command parse_json : val) (a b : bytes) (out err : str)
      (e : exc) (s : state) :
  exec_command ch = None ->
  clean (polls ch) ->
  recv ch = Ok a ->
  recv_stderr ch = Ok b ->
  decode env (out_chunks (polls ch) ++ a) = Ok out ->
  decode env (err_chunks (polls ch) ++ b) = Ok err ->
  stdout_value env parse_json (strip out) = Raise e ->
  run_channel env ch command parse_json s =
  (Raise e, {| res := res s; trace := trace s ++ [ExecCommand command] |}).
Proof.
  intros Hx Hc Ha Hb Ho He Hv.
  unfold run_channel, bind, emit, modify, lift, ret. rewrite Hx.
  rewrite (wait_loop_clean Hc). rewrite Ha, Hb. cbn [fst snd app].
  rewrite Ho, He. unfold stdout_value in Hv.
  destruct (truthy parse_json && nonempty (strip out))%bool; [| discriminate].
  destruct (json_loads env (strip out)) as [v' | | e']; try discriminate.
  injection Hv as ->. reflexivity.
Qed.

(** The client block of a call whose command completes. *)
Lemma client_block_completes
      (host command username password port timeout key_filename policy
       parse_json : val) (p : host_policy) (ch : channel) (out err : str)
      (v : val) :
  policy_table policy = Some p ->
  completes env p (connect_args host username password port timeout key_filename)
            ch out err ->
  stdout_value env parse_json (strip out) = Ok v ->
  channel_exit ch = None ->
  client_exit env = None ->
  exists s2,
    with_exit CloseClient (client_exit env)
      (client_body env host command username password port timeout
                   key_filename policy parse_json)
      {| res := Some (initial_result host); trace := [Timer] |} = (Ok tt, s2) /\
    res s2 =
    Some (update (if Z.eqb (recv_exit_status ch) 0
                  then lit "success" else lit "error")
                 (recv_exit_status ch) (strip err)
                 (set_stdout v (initial_result host))).
Proof.
  intros Hp (Hconn & Hopen & Hx & Hc & a & b & Ha & Hb & Ho & He) Hv Hq1 Hq2.
  unfold with_exit, client_body, bind, ret, emit, modify, lift.
  rewrite Hp, Hconn, Hopen. unfold with_exit.
  erewrite run_channel_completes by eassumption.
  rewrite Hq1, Hq2. eexists. split; reflexivity.
Qed.





(** C7. The required arguments left empty are all named in one failure,
    in the order host, username, command; with none of them empty, a policy
    outside the three known ones fails with the policy message.  In both
    cases the call raises before it has read the timer or tried to connect:
    it ends in the state it started in, with nothing done. *)
Theorem execute_command_validation
        (host command username password port timeout key_filename policy
         parse_json buffer_size : val) :
  let call :=
    execute_command env host command username password port timeout
                    key_filename policy parse_json buffer_size start in
  (forall name,
      In name (missing_required host username command) <->
      (name = lit "host" /\ truthy host = false) \/
      (name = lit "username" /\ truthy username = false) \/
      (name = lit "command" /\ truthy command = false))
  /\
  (missing_required host username command <> [] ->
   fst call =
   Raise (ssh_error (lit "Missing required parameters: " ++
                     join (lit ", ") (missing_required host username command)))
   /\ trace (snd call) = [])
  /\
  (missing_required host username command = [] ->
   policy_unknown policy ->
   fst call =
   Raise (ssh_error (lit "Invalid host policy. Valid options: auto, warning, strict"))
   /\ trace (snd call) = [])
  /\
  (policy_unknown policy ->
   exists message, fst call = Raise (ssh_error message) /\ trace (snd call) = []).
Proof.
  intro call.
  assert (Hmiss : missing_required host username command <> [] ->
                  fst call =
                  Raise (ssh_error (lit "Missing required parameters: " ++
                                    join (lit ", ")
                                         (missing_required host username command)))
                  /\ trace (snd call) = []).
  { intro Hne. subst call. unfold execute_command.
    destruct (missing_required host username command); [congruence |].
    split; reflexivity. }
  assert (Hpol : missing_required host username command = [] ->
                 policy_unknown policy ->
                 fst call =
                 Raise (ssh_error
                          (lit "Invalid host policy. Valid options: auto, warning, strict"))
                 /\ trace (snd call) = []).
  { intros Hm Hu. apply policy_known_false_iff in Hu.
    subst call. unfold execute_command. rewrite Hm, Hu. split; reflexivity. }
  split; [apply missing_required_spec |].
  split; [exact Hmiss |]. split; [exact Hpol |].
  intro Hu. destruct (missing_required host username command) eqn:Hm.
  - eexists. now apply Hpol.
  - eexists. apply Hmiss. discriminate.
Qed.

End Executor.

(** The command prints a JSON object and exits with 0. *)
Example echo_round_trip :
  exists r s,
    SshSample.run SshSample.echo_host (VStr (lit "h")) (VStr (lit "echo"))
                  (VStr (lit "root")) (VStr (lit "warning")) = (Ok r, s) /\
    stdout r = VDict [(KStr (lit "a"), VInt 1)] /\
    status r = lit "success" /\ exit_code r = 0%Z /\ error r = [] /\
    trace s = [Timer;
               Connect WarningPolicy
                 (connect_args (VStr (lit "h")) (VStr (lit "root"))
                               (VStr (lit "secret")) (VInt 22) (VInt 10) VNone);
               OpenSession; ExecCommand (VStr (lit "echo"));
               CloseChannel; CloseClient; Timer].
Proof. eexists. eexists. repeat split. Qed.

(** The host cannot be reached. *)
Example unreachable_host :
  exists r s,
    SshSample.run SshSample.unreachable (VStr (lit "h")) (VStr (lit "echo"))
                  (VStr (lit "root")) (VStr (lit "auto")) = (Ok r, s) /\
    status r = lit "error" /\ exit_code r = (-1)%Z /\
    error r = lit "Connection error: TimeoutError: timed out" /\
    (0 <= execution_time r)%Q.
Proof. eexists. eexists. repeat split. discriminate. Qed.



Lemma execute_command_validation_witness :
  fst (SshSample.run SshSample.echo_host (VStr []) (VStr (lit "uptime")) VNone
                     (VStr (lit "loose"))) =
  Raise (ssh_error (lit "Missing required parameters: host, username"))
  /\
  fst (SshSample.run SshSample.echo_host (VStr (lit "h")) (VStr (lit "uptime"))
                     (VStr (lit "root")) (VStr (lit "loose"))) =
  Raise (ssh_error (lit "Invalid host policy. Valid options: auto, warning, strict")).
Proof.
  split.
  - apply (@execute_command_validation SshSample.echo_host (VStr [])
             (VStr (lit "uptime")) VNone (VStr (lit "secret")) (VInt 22)
             (VInt 10) VNone (VStr (lit "loose")) (VBool true) (VInt 65535)).
    discriminate.
  - apply (@execute_command_validation SshSample.echo_host (VStr (lit "h"))
             (VStr (lit "uptime")) (VStr (lit "root")) (VStr (lit "secret"))
             (VInt 22) (VInt 10) VNone (VStr (lit "loose")) (VBool true)
             (VInt 65535)); [reflexivity |].
    repeat split; discriminate.
Defined.

End SshFacts.

(** * Further properties *)

(** ** [main.py]: names, paths and the cache *)

Module LoaderMore.
Import Py Eff Re Main Spec PyFacts LoaderFacts.

(** *** Association lists *)

Lemma assoc_In {A : Type} (k : str) (c : list (str * A)) (a : A) :
  assoc k c = Some a -> In (k, a) c.
Proof.
  induction c as [| [k0 a0] c IH]; simpl; [discriminate |].
  destruct (str_eqb k k0) eqn:E.
  - apply str_eqb_eq in E. subst k0. intro H. injection H as ->. now left.
  - intro H. right. now apply IH.
Qed.

Lemma assoc_None_iff {A : Type} (k : str) (c : list (str * A)) :
  assoc k c = None <-> ~ In k (map fst c).
Proof.
  induction c as [| [k0 a0] c IH]; simpl; [tauto |].
  destruct (str_eqb k k0) eqn:E.
  - apply str_eqb_eq in E. subst k0. split; [discriminate | tauto].
  - apply str_eqb_neq in E. rewrite IH. split.
    + intros H [H' | H']; [congruence | tauto].
    + tauto.
Qed.

Lemma assoc_NoDup_In {A : Type} (k : str) (c : list (str * A)) (a : A) :
  NoDup (map fst c) -> In (k, a) c -> assoc k c = Some a.
Proof.
  induction c as [| [k0 a0] c IH]; simpl; [tauto |].
  intros Hnd [H | H].
  - injection H as -> ->. now rewrite str_eqb_refl.
  - inversion Hnd as [| ? ? Hnot Hnd']; subst.
    destruct (str_eqb k k0) eqn:E.
    + apply str_eqb_eq in E. subst k0. exfalso. apply Hnot.
      change k with (fst (k, a)). now apply in_map.
    + now apply IH.
Qed.

Lemma In_remove_key {A : Type} (k : str) (c : list (str * A)) (x : str * A) :
  In x (remove_key k c) <-> In x c /\ fst x <> k.
Proof.
  induction c as [| [k0 a0] c IH]; simpl; [tauto |].
  destruct (str_eqb k k0) eqn:E.
  - apply str_eqb_eq in E. subst k0. rewrite IH. split.
    + tauto.
    + intros [[H | H] Hne]; [subst x; simpl in Hne; congruence | tauto].
  - apply str_eqb_neq in E. simpl. rewrite IH. split.
    + intros [H | H]; [subst x; simpl; split; [now left | congruence] | tauto].
    + tauto.
Qed.

Lemma assoc_remove_key_other {A : Type} (k k' : str) (c : list (str * A)) :
  k' <> k -> assoc k' (remove_key k c) = assoc k' c.
Proof.
  intro Hne. induction c as [| [k0 a0] c IH]; simpl; [reflexivity |].
  destruct (str_eqb k k0) eqn:E.
  - apply str_eqb_eq in E. subst k0.
    destruct (str_eqb k' k) eqn:E'; [| exact IH].
    apply str_eqb_eq in E'. congruence.
  - simpl. now rewrite IH.
Qed.

Lemma length_remove_key {A : Type} (k : str) (c : list (str * A)) :
  (List.length (remove_key k c) <= List.length c)%nat.
Proof.
  induction c as [| [k0 a0] c IH]; simpl; [lia |].
  destruct (str_eqb k k0); simpl; lia.
Qed.

Lemma length_remove_key_present {A : Type} (k : str) (c : list (str * A)) (a : A) :
  assoc k c = Some a ->
  (List.length (remove_key k c) < List.length c)%nat.
Proof.
  induction c as [| [k0 a0] c IH]; simpl; [discriminate |].
  destruct (str_eqb k k0); simpl; intro H.
  - pose proof (length_remove_key k c). lia.
  - apply IH in H. lia.
Qed.

Lemma keys_remove_key {A : Type} (k : str) (c : list (str * A)) (k' : str) :
  In k' (map fst (remove_key k c)) -> In k' (map fst c) /\ k' <> k.
Proof.
  rewrite !in_map_iff. intros ([k0 a0] & <- & H).
  apply In_remove_key in H. destruct H as [H Hne]. split; [| exact Hne].
  now exists (k0, a0).
Qed.

Lemma NoDup_remove_key {A : Type} (k : str) (c : list (str * A)) :
  NoDup (map fst c) -> NoDup (map fst (remove_key k c)).
Proof.
  induction c as [| [k0 a0] c IH]; simpl; [trivial |].
  intro H. inversion H as [| ? ? Hnot Hnd]; subst.
  destruct (str_eqb k k0); simpl; [now apply IH |].
  constructor; [| now apply IH].
  intro Hin. apply keys_remove_key in Hin. tauto.
Qed.

Lemma In_firstn {A : Type} (n : nat) (l : list A) (x : A) :
  In x (firstn n l) -> In x l.
Proof.
  revert l. induction n as [| n IH]; intros [| a l]; simpl; try tauto.
  intros [H | H]; [now left | right; now apply IH].
Qed.

Lemma NoDup_firstn {A : Type} (n : nat) (l : list A) :
  NoDup l -> NoDup (firstn n l).
Proof.
  intro H. rewrite <- (firstn_skipn n l) in H.
  now apply NoDup_app_remove_r in H.
Qed.

Lemma NoDup_map_injective {A B : Type} (f : A -> B) (l : list A) (x y : A) :
  NoDup (map f l) -> In x l -> In y l -> f x = f y -> x = y.
Proof.
  induction l as [| a l IH]; simpl; [tauto |].
  intro H. inversion H as [| ? ? Hnot Hnd]; subst.
  intros [Hx | Hx] [Hy | Hy] E.
  - congruence.
  - subst a. exfalso. apply Hnot. rewrite E. now apply in_map.
  - subst a. exfalso. apply Hnot. rewrite <- E. now apply in_map.
  - now apply IH.
Qed.

(** *** What a call of the undecorated function leaves behind *)

Lemma load_script_wrapped_inv (name : str) (w w' : world) (m : module) :
  load_script_wrapped name w = (Ok m, w') ->
  is_script_name_safe name = true /\
  m_name m = name /\ m_id m = next_id w /\
  next_id w' = S (next_id w) /\ cache w' = cache w /\
  exists src,
    storage w (path_of name) = Some src /\
    top_level src = Initialised (m_attrs m).
Proof.
  unfold load_script_wrapped.
  destruct (is_script_name_safe name); [| discriminate].
  unfold bind, get, try_except. cbn [negb].
  destruct (storage w (path_of name)) as [src |]; [| discriminate].
  destruct (has_loader src); [| discriminate]. cbn.
  destruct (top_level src) as [attrs |] eqn:Ht; [| discriminate].
  intro H. injection H as <- <-. cbn. repeat split. now exists src.
Qed.

Lemma load_script_wrapped_next_id (name : str) (w : world) :
  (next_id w <= next_id (snd (load_script_wrapped name w)))%nat.
Proof.
  unfold load_script_wrapped.
  destruct (is_script_name_safe name); [| cbn; lia].
  unfold bind, get, try_except. cbn [negb].
  destruct (storage w (path_of name)) as [src |]; [| cbn; lia].
  destruct (has_loader src); [| cbn; lia]. cbn.
  destruct (top_level src); cbn; lia.
Qed.

(** *** The validator and the path *)

(** X1. [is_script_name_safe] accepts exactly the non-empty strings made of
    ASCII letters, digits and underscores; in particular the empty name is
    not safe. *)
Theorem is_script_name_safe_exact (s : str) :
  is_script_name_safe s = true <-> s <> [] /\ Forall identifier_char s.
Proof. apply ValidatorFacts.is_script_name_safe_iff. Qed.

Lemma identifier_char_codes (c : char) :
  identifier_char c -> c <> ord "/" /\ c <> ord ".".
Proof.
  unfold identifier_char, ascii_letter, ascii_digit, underscore.
  change (ord "/") with 47%N. change (ord ".") with 46%N. lia.
Qed.

(** X2. For a name that passes the validator, the file looked up is
    [scripts/<name>.py]: the name has no slash and no dot, so the path has
    no other directory part, and different safe names give different
    paths. *)
Theorem safe_name_path (name : str) :
  is_script_name_safe name = true ->
  path_of name = lit "scripts/" ++ name ++ lit ".py" /\
  ~ In (ord "/") name /\ ~ In (ord ".") name /\
  forall other,
    is_script_name_safe other = true ->
    path_of other = path_of name -> other = name.
Proof.
  assert (Hpath : forall n, is_script_name_safe n = true ->
                            path_of n = lit "scripts/" ++ n ++ lit ".py").
  { intros n Hn. apply ValidatorFacts.is_script_name_safe_iff in Hn.
    destruct Hn as [Hne Hall]. destruct n as [| c rest]; [congruence |].
    inversion Hall as [| ? ? Hc _]; subst.
    apply identifier_char_codes in Hc. destruct Hc as [Hc _].
    unfold path_of, os_path_join. cbn [app starts_with_sep].
    apply N.eqb_neq in Hc. rewrite Hc. reflexivity. }
  intro Hsafe. split; [now apply Hpath |].
  pose proof Hsafe as Hchars. apply ValidatorFacts.is_script_name_safe_iff in Hchars.
  destruct Hchars as [_ Hall]. rewrite Forall_forall in Hall.
  split; [| split].
  - intro H. apply Hall, identifier_char_codes in H. tauto.
  - intro H. apply Hall, identifier_char_codes in H. tauto.
  - intros other Hother E. rewrite (Hpath _ Hother), (Hpath _ Hsafe) in E.
    apply app_inv_head in E. now apply app_inv_tail in E.
Qed.

Lemma safe_name_path_witness :
  path_of (lit "ssh") = lit "scripts/ssh.py".
Proof.
  apply (proj1 (@safe_name_path (lit "ssh") eq_refl)).
Defined.

(** *** Invariants of the cache *)

Lemma cache_named_miss (name : str) (w : world) :
  cache_named w -> is_script_name_safe name = false ->
  assoc name (cache w) = None.
Proof.
  intros Hn Hbad. destruct (assoc name (cache w)) as [m |] eqn:E; [| reflexivity].
  apply assoc_In, Hn in E. destruct E as [_ E]. congruence.
Qed.

Lemma load_script_rejects (name : str) (w : world) :
  assoc name (cache w) = None ->
  is_script_name_safe name = false ->
  load_script name w =
  (Raise (HTTPException 400 (lit "Unsafe script name.")), w).
Proof.
  intros Hc Hbad. rewrite (load_script_miss _ _ Hc).
  unfold load_script_wrapped. now rewrite Hbad.
Qed.

(** X3. In a process whose cache holds only modules loaded under safe
    names, [load_script] of an unsafe name raises 400 whatever the files
    are, and leaves the state as it was: nothing is looked up, cached or
    executed. *)
Theorem load_script_unsafe (name : str) (w : world) :
  cache_named w ->
  is_script_name_safe name = false ->
  forall st,
    load_script name (set_storage st w) =
    (Raise (HTTPException 400 (lit "Unsafe script name.")), set_storage st w).
Proof.
  intros Hn Hbad st.
  apply load_script_rejects; [cbn; now apply cache_named_miss | exact Hbad].
Qed.

Lemma load_script_unsafe_witness :
  load_script (lit "../main") Sample.boot =
  (Raise (HTTPException 400 (lit "Unsafe script name.")), Sample.boot).
Proof.
  refine (@load_script_unsafe (lit "../main") Sample.boot _ eq_refl
                              Sample.files).
  intros k m H. destruct H.
Defined.

(** X4. [load_script] keeps the cache within its capacity of 32 entries,
    with at most one entry per name. *)
Theorem load_script_cache_bounded (name : str) (w : world) :
  cache_bounded w -> cache_bounded (snd (load_script name w)).
Proof.
  intros [Hnd Hlen]. destruct (assoc name (cache w)) as [m |] eqn:Hc.
  - rewrite (load_script_hit _ _ Hc).
    unfold cache_bounded, lru_touch.
    cbn [snd cache set_cache map fst List.length]. split.
    + constructor; [| now apply NoDup_remove_key].
      intro H. apply keys_remove_key in H. tauto.
    + apply length_remove_key_present in Hc. lia.
  - rewrite (load_script_miss _ _ Hc).
    pose proof (load_script_wrapped_frame name w) as (Fc & _).
    destruct (load_script_wrapped name w) as [[m | e] w']; cbn [snd] in *.
    + unfold cache_bounded, lru_store.
      cbn [snd cache set_cache map fst List.length]. rewrite Fc. split.
      * constructor.
        -- intro H. rewrite in_map_iff in H. destruct H as (x & E & H).
           apply In_firstn in H. apply assoc_None_iff in Hc. apply Hc.
           rewrite <- E. now apply in_map.
        -- rewrite <- firstn_map. now apply NoDup_firstn.
      * pose proof (firstn_le_length (maxsize - 1) (cache w)).
        unfold maxsize in *. lia.
    + unfold cache_bounded. rewrite Fc. now split.
Qed.

Lemma load_script_cache_bounded_witness :
  cache_bounded (snd (load_script (lit "demo") Sample.boot)).
Proof.
  apply (@load_script_cache_bounded (lit "demo") Sample.boot).
  split; [constructor | cbn; unfold maxsize; lia].
Defined.

(** X5. While the cache has room, loading any name leaves every module
    already in the cache there. *)
Theorem load_script_keeps_entry (name k : str) (m : module) (w : world) :
  assoc k (cache w) = Some m ->
  (List.length (cache w) < maxsize)%nat ->
  assoc k (cache (snd (load_script name w))) = Some m.
Proof.
  intros Hk Hroom. destruct (assoc name (cache w)) as [m' |] eqn:Hc.
  - rewrite (load_script_hit _ _ Hc). cbn [snd cache set_cache].
    unfold lru_touch. cbn [assoc].
    destruct (str_eqb k name) eqn:E.
    + apply str_eqb_eq in E. subst k. congruence.
    + apply str_eqb_neq in E. now rewrite assoc_remove_key_other.
  - rewrite (load_script_miss _ _ Hc).
    pose proof (load_script_wrapped_frame name w) as (Fc & _).
    destruct (load_script_wrapped name w) as [[m' | e] w']; cbn [snd] in *.
    + cbn [cache set_cache]. unfold lru_store. cbn [assoc].
      destruct (str_eqb k name) eqn:E.
      * apply str_eqb_eq in E. subst k. congruence.
      * rewrite Fc, firstn_all2; [exact Hk | unfold maxsize in *; lia].
    + now rewrite Fc.
Qed.

Lemma load_script_keeps_entry_witness :
  exists m,
    assoc (lit "demo")
          (cache (snd (load_script (lit "absent")
                                   (snd (load_script (lit "demo") Sample.boot)))))
    = Some m.
Proof.
  eexists.
  apply (@load_script_keeps_entry (lit "absent") (lit "demo") _
           (snd (load_script (lit "demo") Sample.boot)));
    [reflexivity | cbn; unfold maxsize; lia].
Defined.

(** X6. When the cache is full and a name that is not in it loads, the new
    module goes to the front and the entry at the back, the least recently
    used one, is dropped; all other entries stay, in their order. *)
Theorem load_script_evicts_last
        (name : str) (w w1 : world) (m : module)
        (front : list (str * module)) (oldest : str * module) :
  cache w = front ++ [oldest] ->
  List.length (cache w) = maxsize ->
  assoc name (cache w) = None ->
  load_script name w = (Ok m, w1) ->
  cache w1 = (name, m) :: front.
Proof.
  intros Hshape Hfull Hc Hload.
  rewrite (load_script_miss _ _ Hc) in Hload.
  pose proof (load_script_wrapped_frame name w) as (Fc & _).
  destruct (load_script_wrapped name w) as [[m' | e] w']; [| discriminate].
  cbn [snd] in Fc. injection Hload as <- <-.
  cbn [cache set_cache]. unfold lru_store. rewrite Fc, Hshape.
  rewrite Hshape, length_app in Hfull. simpl in Hfull.
  replace (maxsize - 1)%nat with (List.length front + 0)%nat by lia.
  rewrite firstn_app_2. simpl. now rewrite app_nil_r.
Qed.

(** X7. Module objects in the cache are pairwise distinct: [load_script]
    gives every module it creates a fresh identity, so two entries with the
    same module object are the same entry. *)
Theorem load_script_ids_fresh (name : str) (w : world) :
  ids_fresh w ->
  ids_fresh (snd (load_script name w)) /\
  forall k1 m1 k2 m2,
    In (k1, m1) (cache (snd (load_script name w))) ->
    In (k2, m2) (cache (snd (load_script name w))) ->
    m_id m1 = m_id m2 -> k1 = k2 /\ m1 = m2.
Proof.
  intros [Hnd Hlt].
  assert (Hfresh : ids_fresh (snd (load_script name w))).
  { destruct (assoc name (cache w)) as [m |] eqn:Hc.
    - rewrite (load_script_hit _ _ Hc). cbn [snd].
      unfold ids_fresh, lru_touch. cbn [cache set_cache next_id map snd]. split.
      + constructor.
        * intro H. rewrite in_map_iff in H. destruct H as ([k0 m0] & E & H).
          apply In_remove_key in H. destruct H as [H Hne]. cbn in E, Hne.
          apply assoc_In in Hc.
          assert (X : (k0, m0) = (name, m)).
          { apply (NoDup_map_injective (fun e => m_id (snd e)) (cache w));
              assumption. }
          congruence.
        * clear Hlt Hc. induction (cache w) as [| [k0 m0] c IH]; simpl;
            [constructor |].
          inversion Hnd as [| ? ? Hnot Hnd']; subst.
          destruct (str_eqb name k0); [now apply IH |].
          simpl. constructor; [| now apply IH].
          intro H. apply Hnot. rewrite in_map_iff in *.
          destruct H as (x & E & H). apply In_remove_key in H.
          exists x. tauto.
      + intros k0 m0 [H | H].
        * injection H as <- <-. apply assoc_In in Hc. now apply Hlt in Hc.
        * apply In_remove_key in H. destruct H as [H _]. now apply Hlt in H.
    - rewrite (load_script_miss _ _ Hc).
      pose proof (load_script_wrapped_next_id name w) as Hmono.
      destruct (load_script_wrapped name w) as [[m | e] w'] eqn:El;
        cbn [snd] in *.
      + apply load_script_wrapped_inv in El.
        destruct El as (_ & _ & Hid & Hnext & Fc & _).
        unfold ids_fresh, lru_store.
        cbn [cache set_cache next_id map snd]. rewrite Fc, Hnext, Hid. split.
        * constructor.
          -- intro H. rewrite in_map_iff in H. destruct H as ([k0 m0] & E & H).
             apply In_firstn, Hlt in H. cbn in E. lia.
          -- rewrite <- firstn_map. now apply NoDup_firstn.
        * intros k0 m0 [H | H].
          -- injection H as <- <-. lia.
          -- apply In_firstn, Hlt in H. lia.
      + pose proof (load_script_wrapped_frame name w) as (Fc & _).
        rewrite El in Fc. cbn [snd] in Fc.
        unfold ids_fresh. rewrite Fc. split; [exact Hnd |].
        intros k0 m0 H. apply Hlt in H. lia. }
  split; [exact Hfresh |].
  intros k1 m1 k2 m2 H1 H2 E. destruct Hfresh as [Hnd' _].
  assert (X : (k1, m1) = (k2, m2)).
  { apply (NoDup_map_injective (fun e => m_id (snd e))
                               (cache (snd (load_script name w))));
      assumption. }
  injection X as -> ->. now split.
Qed.

Lemma load_script_ids_fresh_witness :
  ids_fresh (snd (load_script (lit "demo") Sample.boot)).
Proof.
  apply (@load_script_ids_fresh (lit "demo") Sample.boot).
  split; [constructor | intros k m H; destruct H].
Defined.

(** X8. In a process whose cache holds only modules loaded under safe
    names, every module [load_script] returns was loaded under the name
    asked for, that name is safe, and the cache stays that way. *)
Theorem load_script_returns_named (name : str) (w w1 : world) (m : module) :
  cache_named w ->
  load_script name w = (Ok m, w1) ->
  m_name m = name /\ is_script_name_safe name = true /\ cache_named w1.
Proof.
  intros Hn Hload. destruct (assoc name (cache w)) as [m' |] eqn:Hc.
  - rewrite (load_script_hit _ _ Hc) in Hload. injection Hload as <- <-.
    pose proof (Hn _ _ (assoc_In _ _ Hc)) as [H1 H2].
    split; [exact H1 |]. split; [exact H2 |].
    intros k m0 H. cbn [cache set_cache] in H. destruct H as [H | H].
    + injection H as <- <-. now split.
    + apply In_remove_key in H. now apply Hn.
  - rewrite (load_script_miss _ _ Hc) in Hload.
    destruct (load_script_wrapped name w) as [[m' | e] w'] eqn:El;
      [| discriminate].
    injection Hload as <- <-.
    apply load_script_wrapped_inv in El.
    destruct El as (Hsafe & Hname & _ & _ & Fc & _).
    split; [exact Hname |]. split; [exact Hsafe |].
    intros k m0 H. cbn [cache set_cache] in H. destruct H as [H | H].
    + injection H as <- <-. now split.
    + apply In_firstn in H. rewrite Fc in H. now apply Hn.
Qed.

Lemma load_script_returns_named_witness :
  exists m w1,
    load_script (lit "demo") Sample.boot = (Ok m, w1) /\
    m_name m = lit "demo" /\ cache_named w1.
Proof.
  eexists. eexists. split; [reflexivity |].
  refine (let H := @load_script_returns_named (lit "demo") Sample.boot _ _ _
                     eq_refl in conj (proj1 H) (proj2 (proj2 H))).
  intros k m H. destruct H.
Defined.

Lemma load_script_evicts_last_witness :
  exists m w1,
    load_script (lit "demo") Sample.crowded = (Ok m, w1) /\
    cache w1 = (lit "demo", m) :: map Sample.filler (seq 0 31).
Proof.
  eexists. eexists. split; [reflexivity |].
  apply (@load_script_evicts_last (lit "demo") Sample.crowded _ _
           (map Sample.filler (seq 0 31)) (Sample.filler 31));
    reflexivity.
Defined.

End LoaderMore.

(** ** [main.py]: the engine and the route *)

Module DispatchMore.
Import Py Eff Re Main Spec PyFacts LoaderFacts LoaderMore DispatchFacts.

(** *** [str.split] *)

Lemma split_nonempty (sep : char) (s : str) : split sep s <> [].
Proof.
  destruct s as [| c rest]; simpl; [discriminate |].
  destruct (N.eqb c sep); [discriminate |].
  destruct (split sep rest); discriminate.
Qed.

Lemma split_without (sep : char) (s : str) :
  ~ In sep s -> split sep s = [s].
Proof.
  induction s as [| c rest IH]; simpl; [reflexivity |].
  intro H. destruct (N.eqb_spec c sep) as [-> | Hne]; [tauto |].
  rewrite IH by tauto. reflexivity.
Qed.

Lemma split_at (sep : char) (a rest : str) :
  ~ In sep a -> split sep (a ++ sep :: rest) = a :: split sep rest.
Proof.
  induction a as [| c a IH]; simpl; intro H.
  - now rewrite N.eqb_refl.
  - destruct (N.eqb_spec c sep) as [-> | Hne]; [tauto |].
    rewrite IH by tauto. reflexivity.
Qed.

Lemma length_split (sep : char) (s : str) :
  List.length (split sep s) = S (count_occ N.eq_dec s sep).
Proof.
  induction s as [| c rest IH]; simpl; [reflexivity |].
  destruct (N.eqb_spec c sep) as [-> | Hne].
  - destruct (N.eq_dec sep sep); [| congruence]. simpl. now rewrite IH.
  - destruct (N.eq_dec c sep); [congruence |].
    destruct (split sep rest) as [| p ps] eqn:E; simpl in *; [discriminate |].
    exact IH.
Qed.

(** *** What [load_script] can raise *)

Lemma load_script_raises (name : str) (w w' : world) (e : exn) :
  load_script name w = (Raise e, w') ->
  exists c detail,
    e = HTTPException c detail /\ (c = 400 \/ c = 404 \/ c = 500)%Z.
Proof.
  intro H. destruct (load_script_raise_inv _ _ H) as [Hc _].
  rewrite (load_script_miss _ _ Hc) in H. unfold load_script_wrapped in H.
  destruct (is_script_name_safe name).
  - unfold bind, get, try_except in H. cbn [negb] in H.
    destruct (storage w (path_of name)) as [src |].
    + destruct (has_loader src); cbn in H.
      * destruct (top_level src); [discriminate |].
        injection H as <- _. eexists. eexists. split; [reflexivity | tauto].
      * injection H as <- _. eexists. eexists. split; [reflexivity | tauto].
    + injection H as <- _. eexists. eexists. split; [reflexivity | tauto].
  - injection H as <- _. eexists. eexists. split; [reflexivity | tauto].
Qed.

Lemma load_script_executed (name : str) (w : world) :
  (assoc name (cache w) <> None ->
   executed (snd (load_script name w)) = executed w) /\
  (executed (snd (load_script name w)) = executed w \/
   executed (snd (load_script name w)) = executed w ++ [name]).
Proof.
  destruct (assoc name (cache w)) as [m |] eqn:Hc.
  - rewrite (load_script_hit _ _ Hc). cbn. tauto.
  - split; [congruence |]. rewrite (load_script_miss _ _ Hc).
    unfold load_script_wrapped.
    destruct (is_script_name_safe name); [| now left].
    unfold bind, get, try_except. cbn [negb].
    destruct (storage w (path_of name)) as [src |]; [| now left].
    destruct (has_loader src); [| now left]. cbn.
    destruct (top_level src); cbn; now right.
Qed.

Section Engine.

Variable repr : val -> str.

(** X9. In a process whose cache holds only modules loaded under safe
    names, a dispatch to an unsafe script name is answered with 400 whatever
    the method, the parameters, the timeout and the files are, and leaves
    the state as it was: no file is looked up, no handler runs. *)
Theorem dispatch_unsafe_name
        (script_name method_name : str) (params : list (str * val)) (timeout : Z)
        (w : world) :
  cache_named w ->
  is_script_name_safe script_name = false ->
  forall st,
    run_script_async repr script_name method_name params timeout
                     (set_storage st w) =
    (Raise (HTTPException 400 (lit "Unsafe script name.")), set_storage st w).
Proof.
  intros Hn Hbad st. apply run_script_async_not_loaded.
  apply load_script_rejects; [cbn; now apply cache_named_miss | exact Hbad].
Qed.

(** X10. When the handler raises, before the timeout, an exception that is
    neither [TypeError] nor [TimeoutError], the engine answers with status
    500 and the text of the exception in the detail.  This includes an
    [HTTPException] raised by the handler: its own status code is not kept. *)
Theorem dispatch_handler_error
        (script_name method_name : str) (params : list (str * val)) (timeout : Z)
        (w w1 : world) (m : module) (method : attr) (d : Q) (e : exn) :
  load_script script_name w = (Ok m, w1) ->
  getattr m method_name = Ok method ->
  to_thread w method params = Completes d (Raise e) ->
  (0 < timeout)%Z ->
  (d < inject_Z timeout)%Q ->
  (forall msg, e <> TypeError msg) ->
  (forall msg, e <> TimeoutError msg) ->
  fst (run_script_async repr script_name method_name params timeout w) =
  Raise (HTTPException 500
           (lit "Error executing method '" ++ method_name ++ lit "': "
            ++ str_of_exn e)).
Proof.
  intros Hload Hattr Hcall Ht Hd H1 H2.
  destruct (@run_script_async_called repr script_name method_name params timeout
              w w1 m _ Hload Hattr)
    as (w2 & _ & ->).
  rewrite Hcall. rewrite wait_for_in_time by now apply in_time_iff.
  destruct e as [c detail | msg | msg | msg | cls msg]; try reflexivity.
  - now destruct (H2 msg).
  - now destruct (H1 msg).
Qed.

(** X11. When the handler itself raises [TimeoutError] before the timeout,
    the engine answers with status 408, as if the deadline had passed,
    although it has waited only for the handler's run time. *)
Theorem dispatch_handler_timeout_error
        (script_name method_name : str) (params : list (str * val)) (timeout : Z)
        (w w1 : world) (m : module) (method : attr) (d : Q) (msg : str) :
  load_script script_name w = (Ok m, w1) ->
  getattr m method_name = Ok method ->
  to_thread w method params = Completes d (Raise (TimeoutError msg)) ->
  (0 < timeout)%Z ->
  (d < inject_Z timeout)%Q ->
  exists w2,
    run_script_async repr script_name method_name params timeout w =
    (Raise (HTTPException 408 (lit "Script execution timed out.")), w2) /\
    now w2 = (now w + d)%Q.
Proof.
  intros Hload Hattr Hcall Ht Hd.
  destruct (@run_script_async_called repr script_name method_name params timeout
              w w1 m _ Hload Hattr)
    as (w2 & (Hnow & _) & ->).
  rewrite Hcall. rewrite wait_for_in_time by now apply in_time_iff.
  eexists. split; [reflexivity |]. cbn. now rewrite Hnow.
Qed.

(** What leaves a dispatch: an [HTTPException] of the engine, or what the
    lookup of the method raised. *)
Lemma run_script_async_status
      (script_name method_name : str) (params : list (str * val)) (timeout : Z)
      (w : world) (e : exn) :
  fst (run_script_async repr script_name method_name params timeout w) = Raise e ->
  (exists c detail, e = HTTPException c detail /\ engine_status c) \/
  (exists m,
      fst (load_script script_name w) = Ok m /\
      getattr m method_name = Raise e /\
      forall msg, e <> AttributeError msg).
Proof.
  unfold engine_status.
  destruct (load_script script_name w) as [[m | e0] w1] eqn:El.
  - erewrite run_script_async_loaded by eassumption.
    destruct (getattr m method_name) as [method | e0] eqn:Eg.
    + intro H. left. revert H.
      destruct (wait_for_thread method params timeout w1) as [[v | e1] w2].
      * destruct (classify repr v w2) as [[r | e2] w3]; [discriminate |].
        destruct e2; cbn; intro H; injection H as <-;
          eexists; eexists; (split; [reflexivity | tauto]).
      * destruct e1; cbn; intro H; injection H as <-;
          eexists; eexists; (split; [reflexivity | tauto]).
    + destruct e0 as [c detail | msg | msg | msg | cls msg]; cbn;
        intro H; injection H as <-;
        try (right; exists m; split; [reflexivity |];
             split; [exact Eg | intros msg0 H0; discriminate H0]).
      left. eexists. eexists. split; [reflexivity | tauto].
  - erewrite run_script_async_not_loaded by eassumption. cbn.
    intro H. injection H as <-. left.
    destruct (load_script_raises _ _ El) as (c & detail & -> & Hc).
    exists c, detail. split; [reflexivity | tauto].
Qed.

(** X12. Whatever the request, the files and the handler do, a call of the
    route either returns an answer, or raises an [HTTPException] whose
    status is 400, 404, 408 or 500, or ends with the exception that the
    lookup of the method name on the loaded module raised: the lookup is made
    outside the guarded block, so what a module's [__getattr__] raises, other
    than [AttributeError], leaves the engine as it is.  No other exception
    leaves the engine. *)
Theorem run_method_status (request : MethodRequest) (timeout : Z) (w : world) :
  match fst (run_method repr request timeout w) with
  | Ok _ => True
  | Raise e =>
      (exists c detail, e = HTTPException c detail /\ engine_status c) \/
      (exists script_name method_name m,
          split (ord ".") (method request) = [script_name; method_name] /\
          fst (load_script script_name w) = Ok m /\
          assoc method_name (m_attrs m) = None /\
          (exists hook, m_getattr m = Some hook /\ hook method_name = Raise e) /\
          forall msg, e <> AttributeError msg)
  end.
Proof.
  destruct (fst (run_method repr request timeout w)) as [r | e] eqn:E;
    [trivial |].
  unfold run_method in E.
  destruct (split (ord ".") (method request)) as [| a [| b [| c rest]]].
  - cbn in E. injection E as <-. left. eexists. eexists.
    split; [reflexivity | left; reflexivity].
  - cbn in E. injection E as <-. left. eexists. eexists.
    split; [reflexivity | left; reflexivity].
  - apply run_script_async_status in E.
    destruct E as [E | (m & Hm & Hg & Hne)]; [now left | right].
    exists a, b, m. split; [reflexivity |]. split; [exact Hm |].
    unfold getattr in Hg.
    destruct (assoc b (m_attrs m)) as [x |]; [discriminate |].
    split; [reflexivity |]. split; [| exact Hne].
    destruct (m_getattr m) as [hook |].
    + now exists hook.
    + injection Hg as <-. now destruct (Hne (lit "module " ++ quote (m_name m)
                                              ++ lit " has no attribute "
                                              ++ quote b)).
  - cbn in E. injection E as <-. left. eexists. eexists.
    split; [reflexivity | left; reflexivity].
Qed.

(** X13. A dispatch runs the top-level code of the module at most once, and
    not at all when the module is already in the cache; nothing else of the
    dispatch (method lookup, call, timeout, classification) runs the
    top-level code of a module or changes the cache. *)
Theorem dispatch_executes_once
        (script_name method_name : str) (params : list (str * val)) (timeout : Z)
        (w : world) :
  let w' :=
    snd (run_script_async repr script_name method_name params timeout w) in
  (assoc script_name (cache w) <> None -> executed w' = executed w) /\
  (executed w' = executed w \/ executed w' = executed w ++ [script_name]) /\
  cache w' = cache (snd (load_script script_name w)).
Proof.
  intro w'. subst w'.
  destruct (run_script_async_frame repr script_name method_name params timeout w)
    as (He & Hc & _).
  rewrite He, Hc.
  destruct (load_script_executed script_name w) as [H1 H2].
  split; [exact H1 |]. split; [exact H2 | reflexivity].
Qed.

(** X14. The route dispatches exactly when the method string has one dot:
    the text before the dot is the script name and the text after it the
    method name.  With no dot or more than one, the answer is 400 and the
    state is untouched. *)
Theorem run_method_format (request : MethodRequest) (timeout : Z) (w : world) :
  (forall a b,
      method request = a ++ lit "." ++ b ->
      ~ In (ord ".") a -> ~ In (ord ".") b ->
      run_method repr request timeout w =
      run_script_async repr a b (params request) timeout w) /\
  (dots (method request) <> 1%nat ->
   run_method repr request timeout w =
   (Raise (HTTPException 400
             (lit "Invalid method format. Should be 'script_name.method_name'.")),
    w)).
Proof.
  split.
  - intros a b E Ha Hb. unfold run_method. rewrite E.
    change (lit "." ++ b) with (ord "." :: b).
    rewrite split_at by assumption. now rewrite split_without.
  - intro Hd. unfold run_method.
    pose proof (length_split (ord ".") (method request)) as Hlen.
    fold (dots (method request)) in Hlen.
    destruct (split (ord ".") (method request)) as [| a [| b [| c rest]]];
      try reflexivity.
    simpl in Hlen. lia.
Qed.

End Engine.

(** The [KeyError] of a module's [__getattr__] leaves the route as it is:
    the answer is no [HTTPException]. *)
Example lookup_fault_escapes :
  fst (run_method Sample.show
         {| method := lit "lazy.anything"; params := [] |} 5 Sample.boot2) =
  Raise (OtherException (lit "KeyError") (lit "'anything'")).
Proof. reflexivity. Qed.

Lemma dispatch_unsafe_name_witness :
  run_script_async Sample.show (lit "../main") (lit "app") [] 5 Sample.boot =
  (Raise (HTTPException 400 (lit "Unsafe script name.")), Sample.boot).
Proof.
  refine (@dispatch_unsafe_name Sample.show (lit "../main") (lit "app") [] 5
            Sample.boot _ eq_refl Sample.files).
  intros k m H. destruct H.
Defined.

Lemma dispatch_handler_error_witness :
  fst (run_script_async Sample.show (lit "tools") (lit "deny") [] 5
                        Sample.boot2) =
  Raise (HTTPException 500
           (lit "Error executing method 'deny': 403: Forbidden")).
Proof.
  refine (@dispatch_handler_error Sample.show (lit "tools") (lit "deny") [] 5
            Sample.boot2 _ _ (Func Sample.deny) (1 # 10) _
            eq_refl eq_refl eq_refl eq_refl eq_refl _ _);
    intros msg H; discriminate H.
Defined.

Lemma dispatch_handler_timeout_error_witness :
  exists w2,
    run_script_async Sample.show (lit "tools") (lit "late") [] 5 Sample.boot2 =
    (Raise (HTTPException 408 (lit "Script execution timed out.")), w2) /\
    now w2 = (0 + (1 # 10))%Q.
Proof.
  refine (@dispatch_handler_timeout_error Sample.show (lit "tools") (lit "late")
            [] 5 Sample.boot2 _ _ (Func Sample.late) (1 # 10) _
            eq_refl eq_refl eq_refl eq_refl eq_refl).
Defined.

Lemma run_method_format_witness :
  fst (run_method Sample.show
         {| method := lit "demo.greet.x"; params := [] |} 5 Sample.boot) =
  Raise (HTTPException 400
           (lit "Invalid method format. Should be 'script_name.method_name'."))
  /\
  run_method Sample.show
    {| method := lit "demo.nap"; params := [] |} 5 Sample.boot =
  run_script_async Sample.show (lit "demo") (lit "nap") [] 5 Sample.boot.
Proof.
  split.
  - rewrite (proj2 (@run_method_format Sample.show
                      {| method := lit "demo.greet.x"; params := [] |} 5
                      Sample.boot)); [reflexivity |].
    vm_compute. discriminate.
  - apply (proj1 (@run_method_format Sample.show
                    {| method := lit "demo.nap"; params := [] |} 5 Sample.boot)
                 (lit "demo") (lit "nap") eq_refl).
    + vm_compute. intuition discriminate.
    + vm_compute. intuition discriminate.
Defined.

End DispatchMore.

(** ** [scripts/ssh.py]: what a call does and what it returns *)

Module SshMore.
Import Py Eff Ssh SshSpec PyFacts SshFacts.
Local Open Scope py_scope.

(** *** Steps that leave the trace alone *)

Lemma quiet_ret {A} (a : A) : quiet (ret a : T A).
Proof. intro s. reflexivity. Qed.

Lemma quiet_raise {A} (e : exc) : quiet (raise e : T A).
Proof. intro s. reflexivity. Qed.

Lemma quiet_lift {A} (r : io A) : quiet (lift r : T A).
Proof. intro s. reflexivity. Qed.

Lemma quiet_assign (f : result -> result) : quiet (assign f).
Proof. intro s. reflexivity. Qed.

Lemma quiet_bind {A B} (m : T A) (k : A -> T B) :
  quiet m -> (forall a, quiet (k a)) -> quiet (bind m k).
Proof.
  intros Hm Hk s. unfold bind. specialize (Hm s).
  destruct (m s) as [[a | e] s']; simpl in *; [| assumption].
  now rewrite Hk.
Qed.

Lemma quiet_read_stream (ready : option (io bytes)) (buf : bytes) :
  quiet (read_stream ready buf).
Proof.
  destruct ready as [r |]; simpl; [| apply quiet_ret].
  apply quiet_bind; [apply quiet_lift | intro; apply quiet_ret].
Qed.

Lemma quiet_wait_loop (ps : list poll) :
  forall out err, quiet (wait_loop ps out err).
Proof.
  induction ps as [| p ps IH]; intros out err; simpl; [apply quiet_ret |].
  apply quiet_bind; [apply quiet_read_stream | intro out'].
  apply quiet_bind; [apply quiet_read_stream | intro err'].
  apply IH.
Qed.

Section Executor.

Variable env : remote.

Lemma run_channel_trace (ch : channel) (command parse_json : val) (s : state) :
  trace (snd (run_channel env ch command parse_json s))
  = trace s ++ [ExecCommand command].
Proof.
  unfold run_channel.
  set (rest := fun _ : unit => _).
  assert (Hq : quiet (rest tt)).
  { unfold rest.
    apply quiet_bind;
      [destruct (exec_command ch); [apply quiet_raise | apply quiet_ret]
      | intros _].
    apply quiet_bind; [apply quiet_wait_loop | intros bufs].
    apply quiet_bind; [apply quiet_lift | intros last_out].
    apply quiet_bind; [apply quiet_lift | intros last_err].
    apply quiet_bind; [apply quiet_lift | intros decoded_out].
    apply quiet_bind; [apply quiet_lift | intros decoded_err].
    apply quiet_bind; [| intros _; apply quiet_assign].
    destruct (truthy parse_json && nonempty (strip decoded_out))%bool.
    - destruct (json_loads env (strip decoded_out));
        [apply quiet_assign | apply quiet_assign | apply quiet_raise].
    - apply quiet_assign. }
  unfold bind at 1. unfold emit, modify. now rewrite (Hq _).
Qed.

Lemma client_body_trace
      (host command username password port timeout key_filename policy
       parse_json : val) (p : host_policy) (s : state) :
  policy_table policy = Some p ->
  let args := connect_args host username password port timeout key_filename in
  trace (snd (client_body env host command username password port timeout
                          key_filename policy parse_json s))
  = trace s ++ Connect p args :: session_events env p args command.
Proof.
  intros Hp args. unfold client_body, session_events, bind, ret, emit, modify,
                    lift, raise.
  rewrite Hp. fold args.
  destruct (connect env p args) as [e |]; [reflexivity |].
  destruct (open_session env) as [ch | e]; cbn [snd trace].
  - unfold with_exit.
    pose proof (run_channel_trace ch command parse_json
                  {| res := res s;
                     trace := (trace s ++ [Connect p args]) ++ [OpenSession] |})
      as Ht.
    destruct (run_channel env ch command parse_json _) as [x s1].
    cbn [snd trace] in Ht.
    destruct (channel_exit ch); cbn [snd trace]; rewrite Ht;
      now rewrite <- !app_assoc.
  - now rewrite <- !app_assoc.
Qed.

Lemma timer_reads_app (a b : list event) :
  timer_reads (a ++ b) = (timer_reads a + timer_reads b)%nat.
Proof. unfold timer_reads. now rewrite filter_app, length_app. Qed.

Lemma timer_reads_session (p : host_policy) (args : list (str * val))
      (command : val) :
  timer_reads (session_events env p args command) = 0%nat.
Proof.
  unfold session_events.
  destruct (connect env p args); [reflexivity |].
  destruct (open_session env); reflexivity.
Qed.

(** The end of a call, with the trace. *)
Lemma guarded_outcome_trace (body : T unit) (t0 : Q) (s1 s2 : state)
      (x : io unit) (r2 : result) :
  body s1 = (x, s2) ->
  res s2 = Some r2 ->
  (try_except_finally body handle
     (t <- read_timer env ;;
      assign (set_execution_time (float_round env (float_sub env t t0)))) ;;;
   get_result) s1 =
  (let r := set_execution_time
              (float_round env
                (float_sub env (perf_counter env (timer_reads (trace s2))) t0))
              match x with
              | Ok _ => r2
              | Raise e => set_error (error_text e) r2
              end in
   (Ok r, {| res := Some r; trace := trace s2 ++ [Timer] |})).
Proof.
  intros Eb Er. unfold bind at 1. unfold try_except_finally, try_except.
  rewrite Eb.
  destruct x as [u | e].
  - unfold bind, read_timer, assign, modify, get_result. simpl. rewrite Er.
    reflexivity.
  - rewrite handle_sets_error.
    unfold bind, read_timer, assign, modify, get_result. simpl. rewrite Er.
    reflexivity.
Qed.

(** A call that passed the checks: the record returned and the final state,
    from the outcome [x] of the client block and the record [r2] it leaves. *)
Lemma execute_command_outcome
      (host command username password port timeout key_filename policy
       parse_json buffer_size : val) (p : host_policy) :
  missing_required host username command = [] ->
  policy_table policy = Some p ->
  let args := connect_args host username password port timeout key_filename in
  exists x s2 r2,
    with_exit CloseClient (client_exit env)
      (client_body env host command username password port timeout
                   key_filename policy parse_json)
      {| res := Some (initial_result host); trace := [Timer] |} = (x, s2) /\
    res s2 = Some r2 /\
    trace s2 = [Timer; Connect p args] ++ session_events env p args command
               ++ [CloseClient] /\
    execute_command env host command username password port timeout
                    key_filename policy parse_json buffer_size start =
    (let r := set_execution_time
                (float_round env
                   (float_sub env (perf_counter env 1) (perf_counter env 0)))
                match x with
                | Ok _ => r2
                | Raise e => set_error (error_text e) r2
                end in
     (Ok r, {| res := Some r; trace := effects env p args command |})).
Proof.
  intros Hm Hp args.
  set (s1 := {| res := Some (initial_result host); trace := [Timer] |}).
  set (inner := client_body env host command username password port timeout
                            key_filename policy parse_json).
  destruct (with_exit CloseClient (client_exit env) inner s1) as [x s2] eqn:Eb.
  assert (Hres : holds (fun _ => True) s2).
  { change s2 with (snd (x, s2)). rewrite <- Eb.
    apply keeps_with_exit; [| now exists (initial_result host)].
    apply keeps_client_body; trivial. }
  destruct Hres as (r2 & Hr2 & _).
  assert (Htr : trace s2 = [Timer; Connect p args]
                           ++ session_events env p args command ++ [CloseClient]).
  { pose proof (@client_body_trace host command username password port timeout
                  key_filename policy parse_json p s1 Hp) as Ht.
    fold inner args in Ht. cbv zeta in Ht.
    unfold with_exit in Eb. destruct (inner s1) as [y s'].
    cbn [snd] in Ht.
    destruct (client_exit env); injection Eb as _ <-; cbn [trace];
      rewrite Ht; reflexivity. }
  exists x, s2, r2. split; [reflexivity |]. split; [exact Hr2 |].
  split; [exact Htr |].
  rewrite execute_command_checked;
    [| assumption | eapply policy_table_known; eassumption].
  fold s1 inner.
  rewrite (@guarded_outcome_trace _ (perf_counter env 0) s1 s2 x r2 Eb Hr2).
  assert (Hn : timer_reads (trace s2) = 1%nat).
  { rewrite Htr, !timer_reads_app, timer_reads_session. reflexivity. }
  rewrite Hn, Htr. unfold effects. cbv zeta.
  now rewrite <- !app_assoc.
Qed.

(** *** The texts *)




(** X15. A call that passed the checks reads the timer first and last and
    nowhere else, tries to connect once, runs the command at most once, and
    closes what it opened on every path: the client always, the channel
    whenever a session was opened. *)
Theorem execute_command_effects
        (host command username password port timeout key_filename policy
         parse_json buffer_size : val) (p : host_policy) :
  missing_required host username command = [] ->
  policy_table policy = Some p ->
  let args := connect_args host username password port timeout key_filename in
  exists r s,
    execute_command env host command username password port timeout
                    key_filename policy parse_json buffer_size start
    = (Ok r, s) /\
    trace s =
    [Timer; Connect p args] ++
    match connect env p args with
    | Some _ => []
    | None =>
        OpenSession ::
        match open_session env with
        | Ok _ => [ExecCommand command; CloseChannel]
        | Raise _ => []
        end
    end ++ [CloseClient; Timer].
Proof.
  intros Hm Hp args.
  destruct (@execute_command_outcome host command username password port
              timeout key_filename policy parse_json buffer_size p Hm Hp)
    as (x & s2 & r2 & _ & _ & _ & Hrun).
  eexists. eexists. split; [exact Hrun |]. reflexivity.
Qed.



(** X18. When the command runs to its end and leaving the blocks raises
    nothing, [stdout] is [None] for an empty output and the stripped text
    when [parse_json] is off.  With [parse_json] on and an output that is not
    empty, it is the parsed value when the text is JSON, and the stripped
    text when the parser rejects it with [JSONDecodeError]; in all these
    cases the [error] text stays empty.  When the parser raises anything
    else, the call fails: the output fields stay untouched and [error]
    reports the exception. *)
Theorem execute_command_stdout
        (host command username password port timeout key_filename policy
         parse_json buffer_size : val) (p : host_policy) (ch : channel)
        (out err : str) :
  missing_required host username command = [] ->
  policy_table policy = Some p ->
  completes env p (connect_args host username password port timeout key_filename)
            ch out err ->
  exits_quietly env ->
  exists r s,
    execute_command env host command username password port timeout
                    key_filename policy parse_json buffer_size start
    = (Ok r, s) /\
    (strip out = [] -> stdout r = VNone /\ error r = []) /\
    (strip out <> [] -> truthy parse_json = false ->
     stdout r = VStr (strip out) /\ error r = []) /\
    (strip out <> [] -> truthy parse_json = true ->
     json_loads env (strip out) = JSONDecodeError ->
     stdout r = VStr (strip out) /\ error r = []) /\
    (forall v,
        strip out <> [] -> truthy parse_json = true ->
        json_loads env (strip out) = Parsed v ->
        stdout r = v /\ error r = []) /\
    (forall e,
        strip out <> [] -> truthy parse_json = true ->
        json_loads env (strip out) = JsonFault e ->
        untouched r /\ error r = error_text e).
Proof.
  intros Hm Hp Hc [Hq1 Hq2].
  pose proof Hc as (Hconn & Hopen & Hx & Hcl & a & b & Ha & Hb & Ho & He).
  destruct (@execute_command_outcome host command username password port
              timeout key_filename policy parse_json buffer_size p Hm Hp)
    as (x & s2 & r2 & Eb & Hr2 & _ & Hrun).
  destruct (stdout_value env parse_json (strip out)) as [v | e] eqn:Hv.
  - destruct (@client_block_completes env host command username password port
                timeout key_filename policy parse_json p ch out err v Hp Hc Hv
                (Hq2 ch Hopen) Hq1) as (s2' & Eb' & Hres').
    rewrite Eb' in Eb. injection Eb as <- <-.
    rewrite Hres' in Hr2. injection Hr2 as <-.
    eexists. eexists. split; [exact Hrun |]. cbv zeta. cbn.
    unfold stdout_value in Hv.
    destruct (strip out) as [| c t] eqn:Et.
    + rewrite andb_false_r in Hv. cbn in Hv. injection Hv as <-.
      repeat split; congruence.
    + cbn [nonempty] in Hv. rewrite andb_true_r in Hv.
      destruct (truthy parse_json).
      * destruct (json_loads env (c :: t)) as [v' | | e]; [| | discriminate];
          injection Hv as <-; repeat split; congruence.
      * injection Hv as <-. repeat split; congruence.
  - unfold with_exit, client_body, bind, ret, emit, modify, lift in Eb.
    rewrite Hp, Hconn, Hopen in Eb. unfold with_exit in Eb.
    erewrite run_channel_parse_fault in Eb by eassumption.
    rewrite (Hq2 ch Hopen), Hq1 in Eb. injection Eb as <- <-.
    cbn in Hr2. injection Hr2 as <-.
    eexists. eexists. split; [exact Hrun |]. cbv zeta. cbn.
    unfold stdout_value in Hv.
    destruct (strip out) as [| c t] eqn:Et.
    + rewrite andb_false_r in Hv. discriminate.
    + cbn [nonempty] in Hv. rewrite andb_true_r in Hv.
      destruct (truthy parse_json); [| discriminate].
      destruct (json_loads env (c :: t)) as [v' | | e']; try discriminate.
      injection Hv as ->.
      split; [congruence |]. split; [congruence |]. split; [congruence |].
      split; [congruence |].
      intros e0 _ _ E. injection E as <-. now repeat split.
Qed.


(** X20. When [connect] raises and closing the client raises nothing, the
    [error] text depends on the kind of exception: the fixed text
    ["Authentication failed: Check credentials"] for an authentication
    failure, without the cause; ["Connection error: "] with the type name and
    message for other SSH and socket errors; ["Unexpected error: "] with the
    type name and message for anything else. *)
Theorem execute_command_connect_error
        (host command username password port timeout key_filename policy
         parse_json buffer_size : val) (p : host_policy) (e : exc) :
  missing_required host username command = [] ->
  policy_table policy = Some p ->
  connect env p (connect_args host username password port timeout key_filename)
  = Some e ->
  client_exit env = None ->
  exists r s,
    execute_command env host command username password port timeout
                    key_filename policy parse_json buffer_size start
    = (Ok r, s) /\
    error r =
    match e_class e with
    | AuthenticationException => lit "Authentication failed: Check credentials"
    | SSHException | SocketError =>
        lit "Connection error: " ++ e_type e ++ lit ": " ++ e_text e
    | SSHError | OtherException =>
        lit "Unexpected error: " ++ e_type e ++ lit ": " ++ e_text e
    end.
Proof.
  intros Hm Hp Hconn Hq.
  destruct (@execute_command_outcome host command username password port
              timeout key_filename policy parse_json buffer_size p Hm Hp)
    as (x & s2 & r2 & Eb & Hr2 & _ & Hrun).
  unfold with_exit, client_body, bind, ret, emit, modify, raise in Eb.
  rewrite Hp, Hconn, Hq in Eb. injection Eb as <- <-.
  cbn in Hr2. injection Hr2 as <-.
  eexists. eexists. split; [exact Hrun |]. cbv zeta. cbn.
  unfold error_text. destruct (e_class e); reflexivity.
Qed.

(** X21. The wait loop appends what each pass reads, standard output and
    standard error apart and in order, to what was read before, and changes
    neither the record nor the trace; if a read raises, the loop ends with
    an exception instead. *)
Theorem wait_loop_collects (ps : list poll) (out err : bytes) (s : state) :
  (clean ps ->
   wait_loop ps out err s
   = (Ok (out ++ out_chunks ps, err ++ err_chunks ps), s)) /\
  (~ clean ps -> exists e, wait_loop ps out err s = (Raise e, s)).
Proof.
  split; intro H.
  - now apply wait_loop_clean.
  - now apply wait_loop_fault.
Qed.

End Executor.

Lemma echo_completes (password key_filename : val) :
  completes SshSample.echo_host WarningPolicy
            (connect_args (VStr (lit "h")) (VStr (lit "root")) password
                          (VInt 22) (VInt 10) key_filename)
            SshSample.session SshSample.output [].
Proof.
  split; [reflexivity |]. split; [reflexivity |]. split; [reflexivity |].
  split.
  - constructor; [| constructor]. split; intros e E; discriminate E.
  - exists [], []. repeat split.
Qed.

Lemma echo_exits_quietly : exits_quietly SshSample.echo_host.
Proof.
  split; [reflexivity |]. intros ch E. injection E as <-. reflexivity.
Qed.

Lemma execute_command_effects_witness :
  exists r s,
    SshSample.run SshSample.unreachable (VStr (lit "h")) (VStr (lit "uptime"))
                  (VStr (lit "root")) (VStr (lit "strict")) = (Ok r, s) /\
    trace s =
    [Timer;
     Connect RejectPolicy
       (connect_args (VStr (lit "h")) (VStr (lit "root")) (VStr (lit "secret"))
                     (VInt 22) (VInt 10) VNone);
     CloseClient; Timer].
Proof.
  apply (@execute_command_effects SshSample.unreachable
           (VStr (lit "h")) (VStr (lit "uptime")) (VStr (lit "root"))
           (VStr (lit "secret")) (VInt 22) (VInt 10) VNone
           (VStr (lit "strict")) (VBool true) (VInt 65535) RejectPolicy
           eq_refl eq_refl).
Defined.



Lemma execute_command_stdout_witness :
  exists r s,
    SshSample.run SshSample.echo_host (VStr (lit "h")) (VStr (lit "echo"))
                  (VStr (lit "root")) (VStr (lit "warning")) = (Ok r, s) /\
    stdout r = VDict [(KStr (lit "a"), VInt 1)] /\ error r = [].
Proof.
  destruct (@execute_command_stdout SshSample.echo_host
              (VStr (lit "h")) (VStr (lit "echo")) (VStr (lit "root"))
              (VStr (lit "secret")) (VInt 22) (VInt 10) VNone
              (VStr (lit "warning")) (VBool true) (VInt 65535) WarningPolicy
              SshSample.session SshSample.output []
              eq_refl eq_refl (echo_completes _ _) echo_exits_quietly)
    as (r & s & Hrun & _ & _ & _ & Hparsed & _).
  exists r, s. split; [exact Hrun |].
  apply Hparsed; [discriminate | reflexivity | reflexivity].
Defined.

(** A parser that gives up with [RecursionError] fails the call. *)
Example parse_fault_fails :
  exists r s,
    SshSample.run SshSample.deep_host (VStr (lit "h")) (VStr (lit "echo"))
                  (VStr (lit "root")) (VStr (lit "warning")) = (Ok r, s) /\
    untouched r /\
    error r =
    lit "Unexpected error: RecursionError: maximum recursion depth exceeded while decoding a JSON array from a unicode string".
Proof. eexists. eexists. now repeat split. Qed.


Lemma execute_command_connect_error_witness :
  exists r s,
    SshSample.run SshSample.unreachable (VStr (lit "h")) (VStr (lit "uptime"))
                  (VStr (lit "root")) (VStr (lit "auto")) = (Ok r, s) /\
    error r = lit "Connection error: TimeoutError: timed out".
Proof.
  apply (@execute_command_connect_error SshSample.unreachable
           (VStr (lit "h")) (VStr (lit "uptime")) (VStr (lit "root"))
           (VStr (lit "secret")) (VInt 22) (VInt 10) VNone
           (VStr (lit "auto")) (VBool true) (VInt 65535) AutoAddPolicy
           SshSample.timed_out eq_refl eq_refl eq_refl eq_refl).
Defined.

Lemma wait_loop_collects_witness :
  wait_loop (polls SshSample.session) [] [] start
  = (Ok (SshSample.output, []), start).
Proof.
  apply (proj1 (@wait_loop_collects (polls SshSample.session) [] [] start)).
  constructor; [| constructor]. split; intros e E; discriminate E.
Defined.

End SshMore.
